(** * GitHub-backed storage of application releases

    A shallow embedding of the [github] storage package: the path
    sanitizer ([PathJoin]), the configuration codec ([treeEntries],
    [loadApp]), the release committer ([ReleasesCreate]), the history
    reader ([Releases]) and the app registry ([Apps], [AppsFind]).

    Go strings are byte strings: [string] of [ascii].  Go's [int] is the
    64-bit two's complement integer, represented in [Z] with its
    wrap-around written out. *)

From Stdlib Require Import ZArith Lia List Bool Ascii String.
From stdpp Require Import base option list strings gmap.

Local Open Scope string_scope.
Local Open Scope Z_scope.

#[local] Arguments String.append !s1 s2 : simpl nomatch.

(** ** Bytes and strings *)

Definition byte_val (c : ascii) : Z := Z.of_nat (nat_of_ascii c).
Definition byte_of (z : Z) : ascii := ascii_of_nat (Z.to_nat z).

Definition chr (c : ascii) : string := String c EmptyString.

(** [strings.Join(elems, sep)] *)
Fixpoint strings_Join (elems : list string) (sep : string) : string :=
  match elems with
  | [] => ""
  | [e] => e
  | e :: rest => e ++ sep ++ strings_Join rest sep
  end.

(** ** net/url: QueryEscape

    [url.QueryEscape] is [escape(s, encodeQueryComponent)]: a byte is
    kept when it is a letter, a digit or one of [-_.~]; a space becomes
    [+]; every other byte becomes [%XX] with upper-case hex digits. *)

Definition upperhex (n : Z) : ascii :=
  if n <? 10 then byte_of (48 + n) else byte_of (65 + (n - 10)).

Definition is_alnum (c : ascii) : bool :=
  let n := byte_val c in
  ((97 <=? n) && (n <=? 122)) || ((65 <=? n) && (n <=? 90)) ||
  ((48 <=? n) && (n <=? 57)).

(** [shouldEscape(c, encodeQueryComponent)] *)
Definition shouldEscape (c : ascii) : bool :=
  if is_alnum c then false
  else
    let n := byte_val c in
    if (n =? 45) || (n =? 95) || (n =? 46) || (n =? 126) then false
    else true.

Definition escape_byte (c : ascii) : string :=
  if shouldEscape c then
    if byte_val c =? 32 then "+"
    else String "%" (String (upperhex (Z.shiftr (byte_val c) 4))
                       (String (upperhex (Z.land (byte_val c) 15)) ""))
  else chr c.

Fixpoint url_QueryEscape (s : string) : string :=
  match s with
  | EmptyString => ""
  | String c rest => escape_byte c ++ url_QueryEscape rest
  end.

(** ** The path sanitizer *)

Definition DirectorySeparator : string := "/".
Definition BlobPerms : string := "100644".
Definition FileVersion : string := "VERSION".
Definition FileEnv : string := "app.env".
Definition FileImage : string := "image.txt".
Definition FileServices : string := "services.json".

Definition PathJoin (basepath : string) (elem : list string) : string :=
  let cleaned := map url_QueryEscape elem in
  strings_Join (basepath :: cleaned) DirectorySeparator.

(** ** fmt: the [%d] verb

    [fmt.Sprintf("%d", v)] for an [int]: [fmtInteger] takes the value as
    a [uint64], negates it when the signed value is negative, and writes
    the decimal digits from the least significant one into a buffer. *)

Definition wrap64 (z : Z) : Z := z mod 2 ^ 64.

(** the value of an [int]: two's complement on 64 bits *)
Definition to_int (z : Z) : Z := (z + 2 ^ 63) mod 2 ^ 64 - 2 ^ 63.

Definition minInt : Z := - 2 ^ 63.
Definition maxInt : Z := 2 ^ 63 - 1.
Definition is_int (z : Z) : Prop := minInt <= z <= maxInt.

Fixpoint fmt_digits (fuel : nat) (u : Z) (buf : string) : string :=
  match fuel with
  | O => buf
  | S fuel' =>
      if 10 <=? u then
        let next := u / 10 in
        fmt_digits fuel' next (String (byte_of (48 + u - next * 10)) buf)
      else String (byte_of (48 + u)) buf
  end.

Definition fmtInteger (v : Z) : string :=
  let u := wrap64 v in
  let negative := v <? 0 in
  let u := if negative then wrap64 (- u) else u in
  let digits := fmt_digits 68 u "" in
  if negative then String "-" digits else digits.

(** [fmt.Sprintf("v%d", version)] *)
Definition Sprintf_v_d (version : Z) : string := "v" ++ fmtInteger version.

(** ** strconv: Atoi

    [Atoi(s)] is [ParseInt(s, 10, 0)] with the error's [Func] renamed
    (its fast path for short strings computes the same results). *)

Inductive numErrKind := ErrSyntax | ErrRange.

Definition maxUint64 : Z := 2 ^ 64 - 1.

(** the digit loop of [ParseUint] for base 10 and 64 bits *)
Fixpoint parseUint_loop (s : string) (n : Z) : numErrKind + Z :=
  match s with
  | EmptyString => inr n
  | String c rest =>
      let b := byte_val c in
      if (48 <=? b) && (b <=? 57) then
        let d := b - 48 in
        if maxUint64 / 10 + 1 <=? n then inl ErrRange
        else
          let n := n * 10 in
          let n1 := wrap64 (n + d) in
          if (n1 <? n) || (maxUint64 <? n1) then inl ErrRange
          else parseUint_loop rest n1
      else inl ErrSyntax
  end.

Definition ParseUint (s : string) : numErrKind + Z :=
  match s with
  | EmptyString => inl ErrSyntax
  | _ => parseUint_loop s 0
  end.

Definition ParseInt (s : string) : numErrKind + Z :=
  match s with
  | EmptyString => inl ErrSyntax
  | String c rest =>
      let '(neg, s') :=
        if Ascii.eqb c "+" then (false, rest)
        else if Ascii.eqb c "-" then (true, rest)
        else (false, s) in
      let cutoff := 2 ^ 63 in
      match ParseUint s' with
      | inl ErrSyntax => inl ErrSyntax
      | inl ErrRange => inl ErrRange
      | inr un =>
          if negb neg && (cutoff <=? un) then inl ErrRange
          else if neg && (cutoff <? un) then inl ErrRange
          else inr (if neg then to_int (- un) else to_int un)
      end
  end.

(** ** strings: TrimSpace

    Leading and trailing white space as [unicode.IsSpace] defines it is
    removed: the six ASCII space bytes and the UTF-8 encodings of
    U+0085, U+00A0, U+1680, U+2000..U+200A, U+2028, U+2029, U+202F,
    U+205F and U+3000. *)

Definition asciiSpace (c : ascii) : bool :=
  let n := byte_val c in
  (n =? 9) || (n =? 10) || (n =? 11) || (n =? 12) || (n =? 13) || (n =? 32).

Definition space2 (c1 c2 : ascii) : bool :=
  (byte_val c1 =? 194) && ((byte_val c2 =? 133) || (byte_val c2 =? 160)).

Definition space3 (c1 c2 c3 : ascii) : bool :=
  let '(a, b, c) := (byte_val c1, byte_val c2, byte_val c3) in
  ((a =? 225) && (b =? 154) && (c =? 128)) ||
  ((a =? 226) && (b =? 128) &&
     (((128 <=? c) && (c <=? 138)) || (c =? 168) || (c =? 169) || (c =? 175))) ||
  ((a =? 226) && (b =? 129) && (c =? 159)) ||
  ((a =? 227) && (b =? 128) && (c =? 128)).

Fixpoint trimLeft (s : list ascii) : list ascii :=
  match s with
  | [] => []
  | c1 :: r1 =>
      if asciiSpace c1 then trimLeft r1
      else
        match r1 with
        | [] => s
        | c2 :: r2 =>
            if space2 c1 c2 then trimLeft r2
            else
              match r2 with
              | [] => s
              | c3 :: r3 => if space3 c1 c2 c3 then trimLeft r3 else s
              end
        end
  end.

(** the same scan from the end, on the reversed bytes *)
Fixpoint trimRight_rev (s : list ascii) : list ascii :=
  match s with
  | [] => []
  | c1 :: r1 =>
      if asciiSpace c1 then trimRight_rev r1
      else
        match r1 with
        | [] => s
        | c2 :: r2 =>
            if space2 c2 c1 then trimRight_rev r2
            else
              match r2 with
              | [] => s
              | c3 :: r3 => if space3 c3 c2 c1 then trimRight_rev r3 else s
              end
        end
  end.

Definition strings_TrimSpace (s : string) : string :=
  string_of_list_ascii
    (rev (trimRight_rev (rev (trimLeft (list_ascii_of_string s))))).

(** [s[1:]] on a string: a run-time panic when [s] is empty *)
Definition slice_from_1 (s : string) : option string :=
  match s with
  | EmptyString => None
  | String _ rest => Some rest
  end.

(** ** Errors and results

    Go's [error] values, by the way they are built.  [fmt.Errorf] is
    kept with its format, its [%q] arguments and the error formatted by
    its final [%v], which is flattened into the text: the result is a
    plain error whatever the kind of the cause.  [libError] stands for
    the errors of the packages the storage calls (the GitHub client,
    [encoding/json], [pkg/image], [pkg/dotenv]).  [NotFoundError] is
    [*empire.NotFoundError], the not-found condition of package
    [empire], which wraps an error. *)

Inductive error : Type :=
| errors_New (text : string)
| fmt_Errorf (format : string) (quoted : list string) (cause : error)
| NumError (Func Num : string) (Err : numErrKind)
| NotFoundError (Err : error)
| libError (pkg msg : string).

Fixpoint contains (s sub : string) : bool :=
  String.prefix sub s ||
  match s with
  | EmptyString => false
  | String _ rest => contains rest sub
  end.

(** the text [p] occurs in one of the pieces the error's message is
    made of *)
Fixpoint error_mentions (p : string) (e : error) : bool :=
  match e with
  | errors_New text => contains text p
  | fmt_Errorf format quoted cause =>
      contains format p || existsb (fun q => contains q p) quoted ||
      error_mentions p cause
  | NumError Func Num _ => contains Func p || contains Num p
  | NotFoundError e' => error_mentions p e'
  | libError pkg msg => contains msg p
  end.

Definition is_NotFoundError (e : error) : bool :=
  match e with NotFoundError _ => true | _ => false end.

(** What a call yields: a value, an [error], or a run-time panic. *)
Inductive outcome (A : Type) : Type :=
| Ok (a : A)
| Err (e : error)
| Panic (msg : string).
Arguments Ok {A} a.
Arguments Err {A} e.
Arguments Panic {A} msg.

(** [strconv.Atoi] *)
Definition strconv_Atoi (s : string) : error + Z :=
  match ParseInt s with
  | inl k => inl (NumError "Atoi" s k)
  | inr n => inr n
  end.

(** A computation over a mutable store [St]: the store is threaded
    through, an error or a panic stops the computation and leaves the
    store as it is at that point. *)
Definition M (St A : Type) : Type := St -> outcome A * St.

Definition ret {St A} (a : A) : M St A := fun st => (Ok a, st).

Definition bind {St A B} (m : M St A) (k : A -> M St B) : M St B :=
  fun st =>
    match m st with
    | (Ok a, st') => k a st'
    | (Err e, st') => (Err e, st')
    | (Panic msg, st') => (Panic msg, st')
    end.

Definition get {St} : M St St := fun st => (Ok st, st).
Definition modify {St} (g : St -> St) : M St unit := fun st => (Ok tt, g st).
Definition lift {St A} (o : outcome A) : M St A := fun st => (o, st).
Definition fail {St A} (e : error) : M St A := fun st => (Err e, st).

(** [v, err := c; if err != nil { return nil, wrap(err) }] *)
Definition try {St A} (r : error + A) (wrap : error -> error) : M St A :=
  match r with
  | inl e => fail (wrap e)
  | inr a => ret a
  end.

Notation "'do' x <- m ; k" := (bind m (fun x => k))
  (at level 10, x name, m at level 100, k at level 200).
Notation "'do_' m ; k" := (bind m (fun _ => k))
  (at level 10, m at level 100, k at level 200).

(** ** The data model *)

Definition time_Time : Type := Z.

(** The file codecs the package imports ([pkg/dotenv], [pkg/image],
    [encoding/json] on the formation type) are taken as an interface.
    [json_Unmarshal raw cur] decodes into the current value [cur] of the
    field it is pointed at and gives the field's new value with the
    error, if any. *)
Class Codec : Type := {
  image_Image : Type;
  empire_Formation : Type;
  dotenv_Write : gmap string string -> error + string;
  dotenv_Read : string -> error + option (gmap string string);
  image_String : image_Image -> string;
  image_Decode : string -> error + image_Image;
  jsonMarshal : empire_Formation -> error + string;
  json_Unmarshal :
    string -> option empire_Formation -> option error * option empire_Formation
}.

(** Modelled from the spec: the type [empire.App] is declared in
    package [empire], outside the storage package.  By the spec's data
    model an application has a name, an integer version, and an
    environment, an image and a formation that may be absent; [None] is
    Go's [nil]. *)
Record App `{Codec} : Type := mkApp {
  Name : string;
  Version : Z;
  Environment : option (gmap string string);
  Image : option image_Image;
  Formation : option empire_Formation
}.
Arguments mkApp {_} _ _ _ _ _.

(** Modelled from the spec: [empire.Release], of package [empire]: the
    application, a description and a creation time.  The storage
    package sets these three fields only. *)
Record Release `{Codec} : Type := mkRelease {
  Release_App : App;
  Description : string;
  CreatedAt : option time_Time
}.
Arguments mkRelease {_} _ _ _.

Record TreeEntry : Type := mkTreeEntry {
  Path : string;
  Type_ : string;
  Mode : string;
  Content : string
}.

(** ** The GitHub API

    Objects the client returns, with the fields the package reads.
    [Decode] is the result of [RepositoryContent.Decode()].

    The client hands these fields out as pointers, and the package
    dereferences them unchecked: the SHA of a ref's object, of a tree
    and of a commit in [ReleasesCreate], the SHA and the message of a
    logged commit in [Releases], the type and the name of a directory
    entry in [Apps].  The objects here are the answers in which these
    fields are set; a run on an answer that lacks one of them ends in a
    nil-pointer panic, which this model does not have.  No property
    below says of [ReleasesCreate], [Releases] or [Apps] that they do
    not panic. *)

Record Reference : Type := { Object_SHA : string }.
Record Tree : Type := { Tree_SHA : string }.
Record Commit : Type := {
  Commit_SHA : string;
  Commit_Tree : Tree;
  Message : string;
  Committer_Date : option time_Time
}.
Record RepositoryCommit : Type := {
  RepositoryCommit_SHA : string;
  RepositoryCommit_Commit : Commit
}.
Record RepositoryContent : Type := {
  Content_Type : string;
  Content_Name : string;
  Decode : error + string
}.

(** the two values and the error of [Repositories.GetContents] *)
Inductive contents : Type :=
| ContentsErr (e : error)
| ContentsFile (c : RepositoryContent)
| ContentsDir (l : list RepositoryContent).

(** The client, over the state [R] of the remote repository.  The
    arguments are owner, repo and the call's own.  Look-ups read the
    remote state; creating a tree or a commit and merging change it. *)
Class GitHub (R : Type) : Type := {
  Git_GetRef : R -> string -> string -> string -> error + Reference;
  Git_GetCommit : R -> string -> string -> string -> error + Commit;
  Git_CreateTree :
    R -> string -> string -> string -> list TreeEntry -> (error + Tree) * R;
  Git_CreateCommit :
    R -> string -> string -> string -> Tree -> list Commit ->
    (error + Commit) * R;
  Repositories_Merge :
    R -> string -> string -> string -> string -> (error + unit) * R;
  Repositories_ListCommits :
    R -> string -> string -> string -> string -> error + list RepositoryCommit;
  Repositories_GetContents :
    R -> string -> string -> string -> string -> contents
}.

Record Storage : Type := mkStorage {
  Owner : string;
  Repo : string;
  BasePath : string;
  Ref : string
}.

(** the remote calls of a release, in the order they are made *)
Inductive call : Type :=
| CallGetRef (ref : string)
| CallGetCommit (sha : string)
| CallCreateTree (baseTree : string) (entries : list TreeEntry)
| CallCreateCommit (message : string) (tree : Tree) (parents : list Commit)
| CallMerge (base head : string).

(** Modelled from the spec: the queries of package [empire], with the
    fields the storage package reads: the application of a releases
    query, and the optional exact name of an apps query. *)
Record ReleasesQuery `{Codec} : Type := { Query_App : App }.
Record AppsQuery : Type := { Query_Name : option string }.

(** ** The storage operations *)

Section Operations.
Context `{codec : Codec}.

Definition set_Version (vi : Z) (app : App) : App :=
  mkApp (Name app) vi (Environment app) (Image app) (Formation app).
Definition set_Formation (fm : option empire_Formation) (app : App) : App :=
  mkApp (Name app) (Version app) (Environment app) (Image app) fm.
Definition set_Image (img : option image_Image) (app : App) : App :=
  mkApp (Name app) (Version app) (Environment app) img (Formation app).
Definition set_Environment (env : option (gmap string string)) (app : App)
  : App :=
  mkApp (Name app) (Version app) env (Image app) (Formation app).

(** [&empire.App{Name: name}] *)
Definition named (name : string) : App := mkApp name 0 None None None.

Definition Storage_Path (s : Storage) (elem : list string) : string :=
  PathJoin (BasePath s) elem.

Definition blob (path content : string) : TreeEntry :=
  mkTreeEntry path "blob" BlobPerms content.

Definition and_then {A B} (r : error + A) (k : A -> error + B) : error + B :=
  match r with inl err => inl err | inr a => k a end.

Definition treeEntries (s : Storage) (app : App) : error + list TreeEntry :=
  let entries :=
    [blob (Storage_Path s [Name app; FileVersion])
          (Sprintf_v_d (Version app))] in
  and_then
    match Environment app with
    | Some env =>
        and_then (dotenv_Write env) (fun envFile =>
        inr (entries ++
             [blob (Storage_Path s [Name app; FileEnv]) envFile])%list)
    | None => inr entries
    end (fun entries =>
  let entries :=
    match Image app with
    | Some img =>
        (entries ++
         [blob (Storage_Path s [Name app; FileImage]) (image_String img)])%list
    | None => entries
    end in
  match Formation app with
  | Some fm =>
      and_then (jsonMarshal fm) (fun formation =>
      inr (entries ++
           [blob (Storage_Path s [Name app; FileServices]) formation])%list)
  | None => inr entries
  end).

(** A [contentFetcher]: what [GetContents(elem...)] answers at the
    reference the fetcher is bound to. *)
Definition contentFetcher : Type := list string -> contents.

Definition fileContent (f : contentFetcher) (path : string) : outcome string :=
  match f [path] with
  | ContentsErr err => Err (fmt_Errorf "get contents of %q: %v" [path] err)
  | ContentsDir _ =>
      (* the file value is nil, and [Decode] dereferences it *)
      Panic "invalid memory address or nil pointer dereference"
  | ContentsFile fileContent =>
      match Decode fileContent with
      | inl err => Err (fmt_Errorf "decoding %q: %v" [path] err)
      | inr raw => Ok raw
      end
  end.

(** [decodeFile(f, path, &app.Formation)] *)
Definition decodeFile (f : contentFetcher) (path : string) : M App unit :=
  do raw <- lift (fileContent f path);
  do app <- get;
  let '(err, fm) := json_Unmarshal raw (Formation app) in
  do_ modify (set_Formation fm);
  match err with
  | Some e => fail e
  | None => ret tt
  end.

(** [loadApp(f, app)]: the store is the [App] that [app] points to,
    the value is the pointer returned ([nil] with an error). *)
Definition loadApp (f : contentFetcher) : M App App :=
  do app <- get;
  do version <- lift (fileContent f (PathJoin (Name app) [FileVersion]));
  do suffix <-
    match slice_from_1 (strings_TrimSpace version) with
    | Some suffix => ret suffix
    | None => lift (Panic "slice bounds out of range [1:0]")
    end;
  do vi <- try (strconv_Atoi suffix) id;
  do_ modify (set_Version vi);
  do_ decodeFile f (PathJoin (Name app) [FileServices]);
  do imageContent <- lift (fileContent f (PathJoin (Name app) [FileImage]));
  do img <- try (image_Decode imageContent) id;
  do_ modify (set_Image (Some img));
  do envContent <- lift (fileContent f (PathJoin (Name app) [FileEnv]));
  do env <- try (dotenv_Read envContent) id;
  do_ modify (set_Environment env);
  get.

Definition filter (apps : list App) (fn : App -> bool) : list App :=
  fold_left (fun filtered app => if fn app then (filtered ++ [app])%list else filtered)
            apps [].

Definition filterApps (apps : list App) (q : AppsQuery) : list App :=
  match Query_Name q with
  | Some name => filter apps (fun app => String.eqb (Name app) name)
  | None => apps
  end.

Section Remote.
Context {R : Type} `{github : GitHub R}.

(** The store of a release: the caller's [App], the remote
    repository and the calls made to it so far, each with whether
    it succeeded. *)
Record world : Type := mkWorld {
  the_app : App;
  remote : R;
  calls : list (call * bool)
}.

Definition on_app (g : App -> App) (w : world) : world :=
  mkWorld (g (the_app w)) (remote w) (calls w).

Definition remote_read {A} (c : call) (rd : R -> error + A)
    (wrap : error -> error) : M world A :=
  fun w =>
    let logged ok := mkWorld (the_app w) (remote w) (calls w ++ [(c, ok)])%list in
    match rd (remote w) with
    | inl err => (Err (wrap err), logged false)
    | inr a => (Ok a, logged true)
    end.

Definition remote_write {A} (c : call) (wr : R -> (error + A) * R)
    (wrap : error -> error) : M world A :=
  fun w =>
    let '(res, r') := wr (remote w) in
    let logged ok := mkWorld (the_app w) r' (calls w ++ [(c, ok)])%list in
    match res with
    | inl err => (Err (wrap err), logged false)
    | inr a => (Ok a, logged true)
    end.

Definition ReleasesCreate (s : Storage) (description : string)
  : M world Release :=
  do_ modify (on_app (fun app => set_Version (to_int (Version app + 1)) app));
  do ref <- remote_read (CallGetRef (Ref s))
              (fun r => Git_GetRef r (Owner s) (Repo s) (Ref s))
              (fmt_Errorf "get %q ref: %v" [Ref s]);
  do lastCommit <- remote_read (CallGetCommit (Object_SHA ref))
              (fun r => Git_GetCommit r (Owner s) (Repo s) (Object_SHA ref))
              (fmt_Errorf "get last commit for %q: %v" [Object_SHA ref]);
  do w <- get;
  do entries <- try (treeEntries s (the_app w))
              (fmt_Errorf "generating tree: %v" []);
  do tree <- remote_write
              (CallCreateTree (Tree_SHA (Commit_Tree lastCommit)) entries)
              (fun r => Git_CreateTree r (Owner s) (Repo s)
                          (Tree_SHA (Commit_Tree lastCommit)) entries)
              (fmt_Errorf "creating tree: %v" []);
  do commit <- remote_write (CallCreateCommit description tree [lastCommit])
              (fun r => Git_CreateCommit r (Owner s) (Repo s)
                          description tree [lastCommit])
              (fmt_Errorf "creating commit: %v" []);
  do_ remote_write (CallMerge (Ref s) (Commit_SHA commit))
              (fun r => Repositories_Merge r (Owner s) (Repo s)
                          (Ref s) (Commit_SHA commit))
              (fmt_Errorf "merging %q into %q: %v" [Commit_SHA commit; Ref s]);
  do w <- get;
  ret (mkRelease (the_app w) description None).

(** [s.GetContentsAtRef(ref)], reading the remote state [r] *)
Definition GetContentsAtRef (r : R) (s : Storage) (ref : string)
  : contentFetcher :=
  fun elem =>
    let fullPath := Storage_Path s elem in
    Repositories_GetContents r (Owner s) (Repo s) fullPath ref.

Definition GetContents (r : R) (s : Storage) : contentFetcher :=
  GetContentsAtRef r s (Ref s).

(** the loop of [Releases] over the commits, [releases] being the
    slice built so far *)
Fixpoint Releases_loop (r : R) (s : Storage) (name : string)
    (commits : list RepositoryCommit) (releases : list Release)
  : outcome (list Release) :=
  match commits with
  | [] => Ok releases
  | commit :: rest =>
      let f := GetContentsAtRef r s (RepositoryCommit_SHA commit) in
      match fst (loadApp f (named name)) with
      | Ok app =>
          Releases_loop r s name rest
            (releases ++
             [mkRelease app
                (Message (RepositoryCommit_Commit commit))
                (Committer_Date (RepositoryCommit_Commit commit))])%list
      | Err err => Err err
      | Panic msg => Panic msg
      end
  end.

Definition Releases (r : R) (s : Storage) (q : ReleasesQuery)
  : outcome (list Release) :=
  let app := Query_App q in
  match Repositories_ListCommits r (Owner s) (Repo s) (Ref s)
          (Storage_Path s [Name app; FileVersion]) with
  | inl err => Err err
  | inr commits => Releases_loop r s (Name app) commits []
  end.

Definition Apps (r : R) (s : Storage) (q : AppsQuery) : outcome (list App) :=
  match GetContents r s [] with
  | ContentsErr err =>
      Err (fmt_Errorf "get contents of %q in %q: %v" [BasePath s; Ref s] err)
  | ContentsFile _ => Ok (filterApps [] q)
  | ContentsDir directoryContent =>
      let apps :=
        fold_left
          (fun apps f =>
             if String.eqb (Content_Type f) "dir"
             then (apps ++ [named (Content_Name f)])%list else apps)
          directoryContent [] in
      Ok (filterApps apps q)
  end.

Definition AppsFind (r : R) (s : Storage) (q : AppsQuery) : outcome App :=
  match Apps r s q with
  | Err err => Err err
  | Panic msg => Panic msg
  | Ok [] => Err (NotFoundError (errors_New "app not found"))
  | Ok (app :: _) => fst (loadApp (GetContents r s) app)
  end.
End Remote.
End Operations.

(** ** A codec for the scenarios

    The packages [pkg/dotenv] and [pkg/image] and the formation type of
    [empire] are not part of the storage package; the spec gives their
    file formats only.  The general properties below hold for every
    [Codec]; the scenarios run on this one. *)

Module SpecCodec.

Definition dquote : ascii := "034".
Definition backslash : ascii := "092".
Definition newline : ascii := "010".

Definition plain_byte (c : ascii) : bool :=
  is_alnum c ||
  existsb (Ascii.eqb c) (list_ascii_of_string "_-./:").

Definition requires_escaping (v : string) : bool :=
  negb (forallb plain_byte (list_ascii_of_string v)).

Definition malformed (v : string) : bool :=
  existsb (fun c => byte_val c =? 0) (list_ascii_of_string v).

Fixpoint escape (v : string) : string :=
  match v with
  | EmptyString => ""
  | String c rest =>
      if Ascii.eqb c dquote || Ascii.eqb c backslash
      then String backslash (String c (escape rest))
      else if Ascii.eqb c newline
      then String backslash (String "n" (escape rest))
      else String c (escape rest)
  end.

Definition quoted (v : string) : string :=
  String dquote (escape v ++ chr dquote).

Definition line (kv : string * string) : string :=
  let '(k, v) := kv in
  k ++ "=" ++ (if requires_escaping v then quoted v else v) ++ chr newline.

(** Modelled from the spec: [dotenv.Write], of [pkg/dotenv].  [app.env]
    holds one [KEY=VALUE] line per entry, a value requiring escaping
    being quoted, and a malformed value is a serialization error.  The
    model takes a value to require escaping when it has a byte other
    than a letter, a digit or one of [_-./:], and to be malformed when
    it has a NUL byte. *)
Definition Write (vars : gmap string string) : error + string :=
  let entries := map_to_list vars in
  if existsb (fun kv => malformed (snd kv)) entries
  then inl (libError "dotenv" "malformed value")
  else inr (fold_right (fun kv out => line kv ++ out) "" entries).

(** the text up to the first [stop] byte, and what follows it *)
Fixpoint cut (stop : ascii) (s : string) : string * option string :=
  match s with
  | EmptyString => ("", None)
  | String c rest =>
      if Ascii.eqb c stop then ("", Some rest)
      else let '(a, b) := cut stop rest in (String c a, b)
  end.

Fixpoint unescape (v : string) : option string :=
  match v with
  | EmptyString => None
  | String c rest =>
      if Ascii.eqb c dquote then
        match rest with EmptyString => Some "" | _ => None end
      else if Ascii.eqb c backslash then
        match rest with
        | String e rest' =>
            option_map (String (if Ascii.eqb e "n" then newline else e))
                       (unescape rest')
        | EmptyString => None
        end
      else option_map (String c) (unescape rest)
  end.

Definition value_of (text : string) : option string :=
  match text with
  | String c rest => if Ascii.eqb c dquote then unescape rest else Some text
  | EmptyString => Some ""
  end.

Fixpoint read_lines (fuel : nat) (s : string) (vars : gmap string string)
  : error + gmap string string :=
  match fuel with
  | O => inr vars
  | S fuel' =>
      match s with
      | EmptyString => inr vars
      | _ =>
          let '(l, rest) := cut newline s in
          let rest := default "" rest in
          match l with
          | EmptyString => read_lines fuel' rest vars
          | _ =>
              match cut "=" l with
              | (k, Some text) =>
                  match value_of text with
                  | Some v => read_lines fuel' rest (<[k := v]> vars)
                  | None => inl (libError "dotenv" "malformed line")
                  end
              | (_, None) => inl (libError "dotenv" "malformed line")
              end
          end
      end
  end.

(** Modelled from the spec: [dotenv.Read], of [pkg/dotenv]: the
    entries of the [KEY=VALUE] lines, a line without [=] or with a
    broken quotation being malformed env syntax. *)
Definition Read (s : string) : error + option (gmap string string) :=
  match read_lines (S (String.length s)) s ∅ with
  | inl err => inl err
  | inr vars => inr (Some vars)
  end.

(** Modelled from the spec: [image.Decode], of [pkg/image].  The image
    is an opaque reference with a canonical string form; the model
    takes the reference to be its text and the empty text to be
    malformed. *)
Definition DecodeImage (s : string) : error + string :=
  match s with
  | EmptyString => inl (libError "image" "malformed image reference")
  | _ => inr s
  end.

(** Modelled from the spec: the JSON form of the formation, a mapping
    from process names to parameters.  The model knows the empty
    formation only, whose JSON text is the empty object. *)
Definition Marshal (fm : unit) : error + string := inr "{}".

(** Modelled from the spec: [json.Unmarshal] into the formation;
    anything but the empty object is malformed JSON for the model, and
    leaves the field as it is. *)
Definition Unmarshal (raw : string) (cur : option unit)
  : option error * option unit :=
  if String.eqb (strings_TrimSpace raw) "{}" then (None, Some tt)
  else (Some (libError "json" "malformed JSON"), cur).

#[export] Instance codec : Codec := {|
  image_Image := string;
  empire_Formation := unit;
  dotenv_Write := Write;
  dotenv_Read := Read;
  image_String := fun img => img;
  image_Decode := DecodeImage;
  jsonMarshal := Marshal;
  json_Unmarshal := Unmarshal
|}.

End SpecCodec.

(** ** A remote repository for the scenarios

    An in-memory stand-in for the GitHub API, as a test would use: the
    files served per reference and path, the commit log of a path, and
    the tip of the one branch.  Every call succeeds unless [failing]
    names it. *)

Module Fake.

Record repo : Type := mkRepo {
  served : string -> string -> contents;
  log : list RepositoryCommit;
  tip : Commit;
  objects : Z;
  failing : list string
}.

Definition fails (r : repo) (op : string) : bool :=
  existsb (String.eqb op) (failing r).

Definition refused {A} (op : string) : error + A :=
  inl (libError "github" op).

Definition bump (r : repo) : repo :=
  mkRepo (served r) (log r) (tip r) (objects r + 1) (failing r).

Definition moved (r : repo) (c : Commit) : repo :=
  mkRepo (served r) (log r) c (objects r) (failing r).

#[export] Instance github : GitHub repo := {|
  Git_GetRef r _ _ _ :=
    if fails r "GetRef" then refused "GetRef"
    else inr {| Object_SHA := Commit_SHA (tip r) |};
  Git_GetCommit r _ _ sha :=
    if fails r "GetCommit" then refused "GetCommit"
    else inr (tip r);
  Git_CreateTree r _ _ _ _ :=
    if fails r "CreateTree" then (refused "CreateTree", r)
    else (inr {| Tree_SHA := "tree" ++ fmtInteger (objects r) |}, bump r);
  Git_CreateCommit r _ _ message tree _ :=
    if fails r "CreateCommit" then (refused "CreateCommit", r)
    else (inr {| Commit_SHA := "commit" ++ fmtInteger (objects r);
                 Commit_Tree := tree;
                 Message := message;
                 Committer_Date := None |}, bump r);
  Repositories_Merge r _ _ _ head :=
    if fails r "Merge" then (refused "Merge", r)
    else (inr tt,
          moved r {| Commit_SHA := head;
                     Commit_Tree := Commit_Tree (tip r);
                     Message := "merge";
                     Committer_Date := None |});
  Repositories_ListCommits r _ _ _ _ :=
    if fails r "ListCommits" then refused "ListCommits"
    else inr (log r);
  Repositories_GetContents r _ _ path ref := served r ref path
|}.

Definition root : Commit :=
  {| Commit_SHA := "c0"; Commit_Tree := {| Tree_SHA := "t0" |};
     Message := "init"; Committer_Date := Some 0 |}.

Definition empty : repo :=
  mkRepo (fun _ _ => ContentsErr (libError "github" "404 Not Found"))
         [] root 1 [].

Definition file (raw : string) : contents :=
  ContentsFile {| Content_Type := "file"; Content_Name := "";
                  Decode := inr raw |}.

Definition missing : contents :=
  ContentsErr (libError "github" "404 Not Found").

(** the files of a repository, by reference and full path *)
Definition at_refs (files : list (string * string * string))
  : string -> string -> contents :=
  fun ref path =>
    match List.find (fun f => String.eqb (fst (fst f)) ref &&
                              String.eqb (snd (fst f)) path) files with
    | Some f => file (snd f)
    | None => missing
    end.

(** a fetcher serving the given files by the path asked for *)
Definition serving (files : list (string * string)) : list string -> contents :=
  fun elem =>
    match elem with
    | [path] =>
        match List.find (fun kv => String.eqb (fst kv) path) files with
        | Some kv => file (snd kv)
        | None => missing
        end
    | _ => missing
    end.

End Fake.

(** ** Lexical position of a path

    What it means for a path to be lexically under a base, by the rules
    of purely lexical path cleaning: an empty or [.] element stays, a
    [..] element goes up to the parent, any other element goes down.
    The path is under the base when it is the base followed by elements
    which never go up above the base. *)

Fixpoint split_elements (s : string) (cur : string) : list string :=
  match s with
  | EmptyString => [cur]
  | String c rest =>
      if Ascii.eqb c "/" then cur :: split_elements rest ""
      else split_elements rest (cur ++ chr c)
  end.

Fixpoint stays_under (elements : list string) (depth : nat) : bool :=
  match elements with
  | [] => true
  | e :: rest =>
      if String.eqb e "" || String.eqb e "." then stays_under rest depth
      else if String.eqb e ".." then
        match depth with
        | O => false
        | S d => stays_under rest d
        end
      else stays_under rest (S depth)
  end.

Fixpoint strip_prefix (p s : string) : option string :=
  match p, s with
  | EmptyString, _ => Some s
  | String a p', String b s' => if Ascii.eqb a b then strip_prefix p' s' else None
  | String _ _, EmptyString => None
  end.

Definition lexically_under (base path : string) : bool :=
  match strip_prefix base path with
  | Some EmptyString => true
  | Some (String c rest) => Ascii.eqb c "/" && stays_under (split_elements rest "") 0
  | None => false
  end.

(** the bytes of a string *)
Definition has_byte (c : ascii) (s : string) : bool :=
  existsb (Ascii.eqb c) (list_ascii_of_string s).

(** ** Consecutive releases

    [releases s descriptions w w']: one [ReleasesCreate] per description
    on the same [App], each of them successful, leads from [w] to [w']. *)

Section Consecutive.
Context `{codec : Codec} {R : Type} `{github : GitHub R}.

Inductive releases (s : Storage)
  : list string -> @world codec R -> @world codec R -> Prop :=
| releases_nil w : releases s [] w w
| releases_cons description rest w rel w1 w' :
    ReleasesCreate s description w = (Ok rel, w1) ->
    releases s rest w1 w' ->
    releases s (description :: rest) w w'.
End Consecutive.

(** every call of the log succeeded *)
Definition all_succeeded (log : list (call * bool)) : bool :=
  forallb snd log.

(** the calls a run from [before] added to the log *)
Definition new_calls (before after : list (call * bool)) : list (call * bool) :=
  skipn (List.length before) after.

(** a call that only reads the remote repository *)
Definition is_lookup (c : call) : bool :=
  match c with
  | CallGetRef _ | CallGetCommit _ => true
  | _ => false
  end.

(** ** What the operations are measured against *)

(** the separator and the escaped components that follow the base *)
Definition joined (elem : list string) : string :=
  fold_right (fun e out => DirectorySeparator ++ url_QueryEscape e ++ out) "" elem.

Section Measures.
Context `{codec : Codec}.

(** the part of an encoding that each optional field gives *)
Definition env_entries (s : Storage) (app : App) (entries : list TreeEntry)
  : Prop :=
  match Environment app with
  | Some env =>
      exists envFile,
        dotenv_Write env = inr envFile /\
        entries = [blob (Storage_Path s [Name app; FileEnv]) envFile]
  | None => entries = []
  end.

Definition image_entries (s : Storage) (app : App) : list TreeEntry :=
  match Image app with
  | Some img => [blob (Storage_Path s [Name app; FileImage]) (image_String img)]
  | None => []
  end.

Definition formation_entries (s : Storage) (app : App)
    (entries : list TreeEntry) : Prop :=
  match Formation app with
  | Some fm =>
      exists formation,
        jsonMarshal fm = inr formation /\
        entries = [blob (Storage_Path s [Name app; FileServices]) formation]
  | None => entries = []
  end.

(** the application after the increment *)
Definition incremented (app : App) : App :=
  set_Version (to_int (Version app + 1)) app.

End Measures.

Section Decoded.
Context `{codec : Codec} {R : Type} `{github : GitHub R}.

(** what decoding the application [name] at a commit gives *)
Definition decoded_at (r : R) (s : Storage) (name : string)
    (commit : RepositoryCommit) : outcome App :=
  fst (loadApp (GetContentsAtRef r s (RepositoryCommit_SHA commit)) (named name)).
End Decoded.

(** ** The scenarios

    The storage and the applications of the end-to-end scenarios, on
    the codec and the remote repository above. *)

Module Scenario.
Import SpecCodec Fake.

Definition storage : Storage := mkStorage "remind101" "apps" "base" "heads/master".

(** application [web], version 0, environment [FOO=bar], no image, no
    formation *)
Definition web : App := mkApp "web" 0 (Some {[ "FOO" := "bar" ]}) None None.

Definition start (app : App) : world := mkWorld app Fake.empty [].

(** a release of [app] on the fresh repository *)
Definition release (app : App) (description : string)
  : outcome Release * world :=
  ReleasesCreate storage description (start app).

Definition web_entries : list TreeEntry :=
  [ blob "base/web/VERSION" "v1";
    blob "base/web/app.env" ("FOO=bar" ++ chr "010") ].

(** [loadApp(f, &empire.App{Name: name})] *)
Definition decode (f : contentFetcher) (name : string) : outcome App * App :=
  loadApp f (named name).

(** a commit that holds the version file only *)
Definition only_version : contentFetcher :=
  Fake.serving [("web/VERSION", "v1")].

(** a commit whose [services.json] is cut short *)
Definition broken_services : contentFetcher :=
  Fake.serving [("web/VERSION", "v1"); ("web/services.json", "{")].

(** a commit whose version file holds white space only *)
Definition blank_version : contentFetcher :=
  Fake.serving [("web/VERSION", "  " ++ chr "010")].

(** a commit whose version file has no number *)
Definition bad_version : contentFetcher :=
  Fake.serving [("web/VERSION", "vx")].

(** [web] at the largest version an [int] holds *)
Definition web_at_max : App := set_Version maxInt web.

(** an application whose environment cannot be written: the value has
    a NUL byte *)
Definition unwritable : App :=
  mkApp "web" 0 (Some {[ "FOO" := "bar" ++ chr "000" ]}) None None.

(** a repository with two releases of [web]; the paths are those the
    storage asks for *)
Definition second : RepositoryCommit :=
  {| RepositoryCommit_SHA := "sha2";
     RepositoryCommit_Commit :=
       {| Commit_SHA := "sha2"; Commit_Tree := {| Tree_SHA := "t2" |};
          Message := "second"; Committer_Date := Some 200 |} |}.

Definition first : RepositoryCommit :=
  {| RepositoryCommit_SHA := "sha1";
     RepositoryCommit_Commit :=
       {| Commit_SHA := "sha1"; Commit_Tree := {| Tree_SHA := "t1" |};
          Message := "first"; Committer_Date := Some 100 |} |}.

Definition history : Fake.repo :=
  Fake.mkRepo
    (Fake.at_refs
       [ ("sha2", "base/web%2FVERSION", "v2");
         ("sha2", "base/web%2Fservices.json", "{}");
         ("sha2", "base/web%2Fimage.txt", "remind101/web:2");
         ("sha2", "base/web%2Fapp.env", "");
         ("sha1", "base/web%2FVERSION", "v1");
         ("sha1", "base/web%2Fservices.json", "{}");
         ("sha1", "base/web%2Fimage.txt", "remind101/web:1");
         ("sha1", "base/web%2Fapp.env", "") ])
    [second; first] Fake.root 1 [].

Definition web_releases : outcome (list Release) :=
  Releases history storage {| Query_App := named "web" |}.

(** a repository whose base path lists two directories and a file *)
Definition registry : Fake.repo :=
  Fake.mkRepo
    (fun ref path =>
       if String.eqb ref "heads/master" && String.eqb path "base" then
         ContentsDir
           [ {| Content_Type := "dir"; Content_Name := "api";
                Decode := inl (errors_New "not a file") |};
             {| Content_Type := "file"; Content_Name := "README.md";
                Decode := inr "" |};
             {| Content_Type := "dir"; Content_Name := "web";
                Decode := inl (errors_New "not a file") |} ]
       else Fake.missing)
    [] Fake.root 1 [].

Definition any_app : AppsQuery := {| Query_Name := None |}.

Definition find_app (q : AppsQuery) : outcome App :=
  AppsFind registry storage q.
Definition list_apps (q : AppsQuery) : outcome (list App) :=
  Apps registry storage q.
Definition registry_fetcher : contentFetcher := GetContents registry storage.

(** application [api] with all four files *)
Definition api : App :=
  mkApp "api" 7 (Some {[ "FOO" := "bar" ]}) (Some "remind101/api:latest")
        (Some tt).

Definition api_entries : list TreeEntry :=
  [ blob "base/api/VERSION" "v7";
    blob "base/api/app.env" ("FOO=bar" ++ chr "010");
    blob "base/api/image.txt" "remind101/api:latest";
    blob "base/api/services.json" "{}" ].

End Scenario.

(** ** Fetchers that serve an encoding

    [serves f s name entries]: for each of the four files of the
    application [name], the fetcher [f] answers the path the decoder
    asks for with the content of the entry the encoder wrote for that
    file under the storage [s], and with an error when there is no such
    entry. *)

Definition entry_at (entries : list TreeEntry) (path : string)
  : option TreeEntry :=
  List.find (fun e => String.eqb (Path e) path) entries.

Definition serves (f : contentFetcher) (s : Storage) (name : string)
    (entries : list TreeEntry) : Prop :=
  forall file,
    In file [FileVersion; FileServices; FileImage; FileEnv] ->
    match entry_at entries (Storage_Path s [name; file]) with
    | Some e =>
        exists c, f [PathJoin name [file]] = ContentsFile c /\
                  Decode c = inr (Content e)
    | None => exists err, f [PathJoin name [file]] = ContentsErr err
    end.

(** the fetcher of a test: it serves [entries] and nothing else *)
Definition fetcher_of (s : Storage) (name : string) (entries : list TreeEntry)
  : contentFetcher :=
  fun elem =>
    match elem with
    | [path] =>
        match List.find (fun file => String.eqb path (PathJoin name [file]))
                [FileVersion; FileServices; FileImage; FileEnv] with
        | Some file =>
            match entry_at entries (Storage_Path s [name; file]) with
            | Some e => Fake.file (Content e)
            | None => Fake.missing
            end
        | None => Fake.missing
        end
    | _ => Fake.missing
    end.

(** [is_digit]: a decimal digit; [solid]: an ASCII byte that is not
    white space *)
Definition is_digit (c : ascii) : bool :=
  (48 <=? byte_val c) && (byte_val c <=? 57).

Definition solid (c : ascii) : bool :=
  (byte_val c <? 128) && negb (asciiSpace c).


(** ** The version file, as the decoder sees it

    [version_missing f name]: the VERSION file of [name] cannot be had
    from [f]; [version_suffix f name sfx]: it can, and [sfx] is what
    follows the first byte of its trimmed content. *)

Definition version_missing (f : contentFetcher) (name : string) : Prop :=
  exists err, fileContent f (PathJoin name [FileVersion]) = Err err.

Definition version_suffix (f : contentFetcher) (name sfx : string) : Prop :=
  exists raw,
    fileContent f (PathJoin name [FileVersion]) = Ok raw /\
    slice_from_1 (strings_TrimSpace raw) = Some sfx.


(** ** The listing of applications, as lists

    [directories l]: the applications of the directory entries of a
    listing, in its order; [matching q apps]: those that the query
    keeps. *)

Section Listing.
Context `{codec : Codec}.

Definition directories (l : list RepositoryContent) : list App :=
  map (fun f => named (Content_Name f))
      (List.filter (fun f => String.eqb (Content_Type f) "dir") l).

Definition matching (q : AppsQuery) (apps : list App) : list App :=
  match Query_Name q with
  | Some name => List.filter (fun app => String.eqb (Name app) name) apps
  | None => apps
  end.

(** the release read from a commit *)
Definition release_of (commit : RepositoryCommit) (rel : Release)
    (decoded : outcome App) : Prop :=
  decoded = Ok (Release_App rel) /\
  Description rel = Message (RepositoryCommit_Commit commit) /\
  CreatedAt rel = Committer_Date (RepositoryCommit_Commit commit).
End Listing.


(** ** The steps of a release

    [call_step c]: the place of the call [c] in the sequence of a
    release. *)

Definition call_step (c : call) : nat :=
  match c with
  | CallGetRef _ => 0
  | CallGetCommit _ => 1
  | CallCreateTree _ _ => 2
  | CallCreateCommit _ _ _ => 3
  | CallMerge _ _ => 4
  end.

(** an error built by [fmt.Errorf] *)
Definition is_Errorf (e : error) : bool :=
  match e with fmt_Errorf _ _ _ => true | _ => false end.


(** ** Reading an escaped byte back

    [unescape_head s]: the byte that the text [s] starts with when it
    is read as [url.QueryEscape] wrote it, and what follows: [%XX] is
    the byte of the two hex digits, [+] is a space, any other byte is
    itself. *)

Definition hex_value (c : ascii) : option Z :=
  let n := byte_val c in
  if (48 <=? n) && (n <=? 57) then Some (n - 48)
  else if (65 <=? n) && (n <=? 70) then Some (n - 55)
  else None.

Definition unescape_head (s : string) : option (ascii * string) :=
  match s with
  | EmptyString => None
  | String c rest =>
      if Ascii.eqb c "%" then
        match rest with
        | String h (String l rest') =>
            match hex_value h, hex_value l with
            | Some a, Some b => Some (byte_of (16 * a + b), rest')
            | _, _ => None
            end
        | _ => None
        end
      else if Ascii.eqb c "+" then Some (" "%char, rest)
      else Some (c, rest)
  end.


(** ** Authentication and authorization on GitHub

    The package [github] of [server]: [Authenticator],
    [OrganizationAuthorizer] and [TeamAuthorizer].  Go compares errors
    by identity, so the errors are kept by what they are: the two
    sentinels of the GitHub client that [Authenticate] looks for, the
    two sentinels of package [auth] it answers with, the
    [*auth.UnauthorizedError] of the authorizers with its reason, and
    any other error.  The records have the fields the code reads or
    sets; the client is the interface the three types hold. *)

Module Auth.

Inductive err : Type :=
| errTwoFactor
| errUnauthorized
| auth_ErrTwoFactor
| auth_ErrForbidden
| UnauthorizedError (Reason : string)
| other (e : error).

Record CreateAuthorizationOptions : Type := {
  Username : string;
  Password : string;
  OTP : string
}.
Record Authorization : Type := { Token : string }.
Record User : Type := { Login : string }.

(** [empire.User] *)
Record empire_User : Type := {
  User_Name : string;
  GitHubToken : string
}.

Record client : Type := {
  CreateAuthorization : CreateAuthorizationOptions -> err + Authorization;
  GetUser : string -> err + User;
  IsOrganizationMember : string -> string -> bool * option err;
  IsTeamMember : string -> string -> string -> bool * option err
}.

(** a call of the package: a value, an error, or a panic *)
Inductive result (A : Type) : Type :=
| Return (a : A)
| Fail (e : err)
| Panics (msg : string).
Arguments Return {A} a.
Arguments Fail {A} e.
Arguments Panics {A} msg.

Definition Authenticate (c : client) (username password otp : string)
  : result empire_User :=
  match CreateAuthorization c
          {| Username := username; Password := password; OTP := otp |} with
  | inl e =>
      match e with
      | errTwoFactor => Fail auth_ErrTwoFactor
      | errUnauthorized => Fail auth_ErrForbidden
      | _ => Fail e
      end
  | inr authorization =>
      match GetUser c (Token authorization) with
      | inl e => Fail e
      | inr u =>
          Return {| User_Name := Login u;
                    GitHubToken := Token authorization |}
      end
  end.

Definition dq : string := String "034" EmptyString.

(** [OrganizationAuthorizer.Authorize]; [Return tt] is the nil error *)
Definition Organization_Authorize (c : client) (Organization : string)
    (user : empire_User) : result unit :=
  if String.eqb Organization "" then Panics "no organization set"
  else
    match IsOrganizationMember c Organization (GitHubToken user) with
    | (_, Some e) => Fail e
    | (false, None) =>
        Fail (UnauthorizedError
                (User_Name user ++ " is not a member of the " ++ dq ++
                 Organization ++ dq ++ " organization."))
    | (true, None) => Return tt
    end.

(** [TeamAuthorizer.Authorize] *)
Definition Team_Authorize (c : client) (TeamID : string) (user : empire_User)
  : result unit :=
  if String.eqb TeamID "" then Panics "no team id set"
  else
    match IsTeamMember c TeamID (User_Name user) (GitHubToken user) with
    | (_, Some e) => Fail e
    | (false, None) =>
        Fail (UnauthorizedError
                (User_Name user ++ " is not a member of team " ++ TeamID ++ "."))
    | (true, None) => Return tt
    end.

End Auth.

(** ** Releases as the Heroku API shows them

    [newRelease] and [newReleases] of package [heroku] of [server].
    [empire.Release] has two more fields, [UserId] and [UserEmail],
    which the storage does not set; they are passed beside the release
    as the user.  Dereferencing a nil [CreatedAt] is a run-time
    panic. *)

Record heroku_User : Type := { Id : string; Email : string }.

Record heroku_Release : Type := {
  heroku_Version : Z;
  heroku_Description : string;
  heroku_CreatedAt : time_Time;
  heroku_User_of : heroku_User;
  heroku_Slug : option string
}.

Section Heroku.
Context `{codec : Codec}.

Definition newRelease (r : Release) (user : heroku_User)
  : outcome heroku_Release :=
  match CreatedAt r with
  | None => Panic "invalid memory address or nil pointer dereference"
  | Some createdAt =>
      let release :=
        {| heroku_Version := Version (Release_App r);
           heroku_Description := Description r;
           heroku_CreatedAt := createdAt;
           heroku_User_of := user;
           heroku_Slug := None |} in
      match Image (Release_App r) with
      | Some img =>
          Ok {| heroku_Version := heroku_Version release;
                heroku_Description := heroku_Description release;
                heroku_CreatedAt := heroku_CreatedAt release;
                heroku_User_of := heroku_User_of release;
                heroku_Slug := Some (image_String img) |}
      | None => Ok release
      end
  end.

Fixpoint newReleases (rs : list (Release * heroku_User))
  : outcome (list heroku_Release) :=
  match rs with
  | [] => Ok []
  | (r, user) :: rest =>
      match newRelease r user with
      | Ok release =>
          match newReleases rest with
          | Ok releases => Ok (release :: releases)
          | Err e => Err e
          | Panic msg => Panic msg
          end
      | Err e => Err e
      | Panic msg => Panic msg
      end
  end.
End Heroku.


(** ** More scenarios *)

Module Scenario2.
Import SpecCodec Fake.

(** a repository whose commit log cannot be had *)
Definition no_log : Fake.repo :=
  Fake.mkRepo (fun _ _ => Fake.missing) [] Fake.root 1 ["ListCommits"].

Definition no_log_releases : outcome (list Release) :=
  Releases no_log Scenario.storage {| Query_App := named "web" |}.

(** two releases on the same application, one after the other *)
Definition twice (app : App) (d1 d2 : string) : outcome Release * world :=
  ReleasesCreate Scenario.storage d2 (snd (Scenario.release app d1)).

(** the release of [web] and the world after it *)
Definition released : Release := mkRelease (incremented Scenario.web) "release" None.

(** [web] at version 1 as a fetcher serves its encoding *)
Definition web_fetcher : contentFetcher :=
  fetcher_of Scenario.storage "web" Scenario.web_entries.

Definition api_fetcher : contentFetcher :=
  fetcher_of Scenario.storage "api" Scenario.api_entries.

Definition someone : heroku_User := {| Id := "1"; Email := "someone@example.com" |}.

(** a release of [api] with a creation time *)
Definition dated : Release := mkRelease Scenario.api "first" (Some 100).

(** a GitHub client that asks for a second factor *)
Definition two_factor : Auth.client :=
  {| Auth.CreateAuthorization := fun _ => inl Auth.errTwoFactor;
     Auth.GetUser := fun _ => inl Auth.errUnauthorized;
     Auth.IsOrganizationMember := fun _ _ => (false, None);
     Auth.IsTeamMember := fun _ _ _ => (false, None) |}.

(** a GitHub client that knows the token [secret] of [ejholmes], a
    member of the organization [remind101] and of team [42] *)
Definition members : Auth.client :=
  {| Auth.CreateAuthorization := fun _ => inr {| Auth.Token := "secret" |};
     Auth.GetUser := fun token =>
       if String.eqb token "secret" then inr {| Auth.Login := "ejholmes" |}
       else inl Auth.errUnauthorized;
     Auth.IsOrganizationMember := fun organization token =>
       (String.eqb organization "remind101" && String.eqb token "secret", None);
     Auth.IsTeamMember := fun team name token =>
       (String.eqb team "42" && String.eqb token "secret", None) |}.

(** a commit whose version file has white space around the version *)
Definition spaced_version : contentFetcher :=
  Fake.serving [("web/VERSION", " v12" ++ chr "010")].

Definition ejholmes : Auth.empire_User :=
  {| Auth.User_Name := "ejholmes"; Auth.GitHubToken := "secret" |}.

End Scenario2.


(** [blank s]: every byte of [s] is an ASCII space byte *)
Definition blank (s : string) : bool :=
  forallb asciiSpace (list_ascii_of_string s).


(* ================================================================== *)
(** * Properties *)

Example PathJoin_traversal_component :
  PathJoin "base" ["a/../../etc"] = "base/a%2F..%2F..%2Fetc".
Proof. reflexivity. Qed.

Example PathJoin_web_version :
  PathJoin "base" ["web"; FileVersion] = "base/web/VERSION".
Proof. reflexivity. Qed.

Example url_QueryEscape_space : url_QueryEscape "my app" = "my+app".
Proof. reflexivity. Qed.

Example Sprintf_v_d_1 : Sprintf_v_d 1 = "v1".
Proof. reflexivity. Qed.

Example Sprintf_v_d_min : Sprintf_v_d minInt = "v-9223372036854775808".
Proof. reflexivity. Qed.

Example TrimSpace_newline : strings_TrimSpace (" v12" ++ chr "010") = "v12".
Proof. reflexivity. Qed.

Example TrimSpace_blank : strings_TrimSpace ("  " ++ chr "010") = "".
Proof. reflexivity. Qed.

Example lexically_under_inside :
  lexically_under "base" "base/web/../api/VERSION" = true.
Proof. reflexivity. Qed.

Example lexically_under_outside :
  lexically_under "base" "base/web/../../etc" = false.
Proof. reflexivity. Qed.

(** ** Decimal digits: [Atoi] reads back what [%d] writes *)

Lemma byte_val_of (z : Z) : 0 <= z < 256 -> byte_val (byte_of z) = z.
Proof.
  intros Hz. unfold byte_val, byte_of.
  rewrite nat_ascii_embedding by lia. lia.
Qed.

Lemma byte_val_digit (d : Z) :
  0 <= d <= 9 -> byte_val (byte_of (48 + d)) = 48 + d.
Proof. intros Hd. apply byte_val_of. lia. Qed.

Lemma is_digit_byte_of (d : Z) : 0 <= d <= 9 -> is_digit (byte_of (48 + d)) = true.
Proof.
  intros Hd. unfold is_digit. rewrite byte_val_digit by lia.
  apply andb_true_intro. split; apply Z.leb_le; lia.
Qed.

Lemma parseUint_loop_digit (d m : Z) (buf : string) :
  0 <= d <= 9 -> 0 <= m -> m * 10 + d <= maxUint64 ->
  parseUint_loop (String (byte_of (48 + d)) buf) m
  = parseUint_loop buf (m * 10 + d).
Proof.
  intros Hd Hm Hmax. cbn [parseUint_loop].
  rewrite byte_val_digit by lia.
  unfold maxUint64, wrap64 in *.
  change (2 ^ 64) with 18446744073709551616 in *.
  change ((18446744073709551616 - 1) / 10 + 1) with 1844674407370955162.
  replace ((48 <=? 48 + d) && (48 + d <=? 57)) with true
    by (symmetry; apply andb_true_intro; split; apply Z.leb_le; lia).
  replace (1844674407370955162 <=? m) with false
    by (symmetry; apply Z.leb_gt; lia).
  replace (48 + d - 48) with d by lia.
  rewrite Z.mod_small by lia.
  replace (m * 10 + d <? m * 10) with false by (symmetry; apply Z.ltb_ge; lia).
  replace (18446744073709551616 - 1 <? m * 10 + d) with false
    by (symmetry; apply Z.ltb_ge; lia).
  reflexivity.
Qed.

Lemma parseUint_loop_fmt_digits (fuel : nat) :
  forall (u : Z) (buf : string),
    0 <= u < 10 ^ Z.of_nat fuel ->
    exists P : Z,
      0 < P /\
      forall n, 0 <= n -> n * P + u <= maxUint64 ->
        parseUint_loop (fmt_digits fuel u buf) n = parseUint_loop buf (n * P + u).
Proof.
  induction fuel as [|fuel IH]; intros u buf Hu.
  - exists 1. split; [lia|]. intros n Hn _. cbn [fmt_digits].
    change (10 ^ Z.of_nat 0) with 1 in Hu. f_equal. lia.
  - cbn [fmt_digits]. destruct (Z.leb_spec 10 u) as [Hge|Hlt].
    + assert (Hnext : 0 <= u / 10 < 10 ^ Z.of_nat fuel).
      { split; [apply Z.div_pos; lia|].
        apply Z.div_lt_upper_bound; [lia|].
        rewrite Nat2Z.inj_succ, Z.pow_succ_r in Hu by lia. lia. }
      destruct (IH (u / 10) (String (byte_of (48 + u - u / 10 * 10)) buf) Hnext)
        as (P & HP & Hparse).
      exists (P * 10). split; [lia|]. intros n Hn Hmax.
      pose proof (Z.div_mod u 10 ltac:(lia)) as Hdm.
      pose proof (Z.mod_pos_bound u 10 ltac:(lia)) as Hmod.
      rewrite Hparse by nia.
      replace (48 + u - u / 10 * 10) with (48 + (u - u / 10 * 10)) by lia.
      rewrite parseUint_loop_digit by nia.
      f_equal. lia.
    + exists 10. split; [lia|]. intros n Hn Hmax.
      rewrite parseUint_loop_digit by lia. reflexivity.
Qed.

Lemma fmt_digits_head (fuel : nat) :
  forall (u : Z) (c : ascii) (buf : string),
    0 <= u -> is_digit c = true ->
    exists c' rest,
      fmt_digits fuel u (String c buf) = String c' rest /\ is_digit c' = true.
Proof.
  induction fuel as [|fuel IH]; intros u c buf Hu Hc; cbn [fmt_digits].
  - eauto.
  - destruct (Z.leb_spec 10 u) as [Hge|Hlt].
    + apply IH; [apply Z.div_pos; lia|].
      pose proof (Z.div_mod u 10 ltac:(lia)) as Hdm.
      pose proof (Z.mod_pos_bound u 10 ltac:(lia)) as Hmod.
      replace (48 + u - u / 10 * 10) with (48 + (u - u / 10 * 10)) by lia.
      apply is_digit_byte_of. lia.
    + do 2 eexists. split; [reflexivity|]. apply is_digit_byte_of. lia.
Qed.

Lemma fmt_digits_S_head (fuel : nat) (u : Z) :
  0 <= u ->
  exists c rest,
    fmt_digits (S fuel) u "" = String c rest /\ is_digit c = true.
Proof.
  intros Hu. cbn [fmt_digits]. destruct (Z.leb_spec 10 u) as [Hge|Hlt].
  - apply fmt_digits_head; [apply Z.div_pos; lia|].
    pose proof (Z.div_mod u 10 ltac:(lia)) as Hdm.
    pose proof (Z.mod_pos_bound u 10 ltac:(lia)) as Hmod.
    replace (48 + u - u / 10 * 10) with (48 + (u - u / 10 * 10)) by lia.
    apply is_digit_byte_of. lia.
  - do 2 eexists. split; [reflexivity|]. apply is_digit_byte_of. lia.
Qed.

Lemma ParseUint_fmt_digits (u : Z) :
  0 <= u <= maxUint64 -> ParseUint (fmt_digits 68 u "") = inr u.
Proof.
  intros Hu.
  destruct (fmt_digits_S_head 67 u ltac:(lia)) as (c & rest & Heq & _).
  unfold ParseUint. rewrite Heq, <- Heq.
  destruct (parseUint_loop_fmt_digits 68 u "") as (P & HP & Hparse).
  { split; [lia|]. unfold maxUint64 in Hu.
    change (2 ^ 64) with 18446744073709551616 in Hu.
    assert (Hbig : 18446744073709551616 < 10 ^ Z.of_nat 68)
      by (vm_compute; reflexivity).
    lia. }
  rewrite Hparse by lia. cbn [parseUint_loop]. f_equal; lia.
Qed.

Lemma digit_not_sign (c : ascii) :
  is_digit c = true -> Ascii.eqb c "+" = false /\ Ascii.eqb c "-" = false.
Proof.
  intros Hc. split; apply Ascii.eqb_neq; intros ->; discriminate.
Qed.

Lemma to_int_small (z : Z) : is_int z -> to_int z = z.
Proof.
  unfold is_int, minInt, maxInt, to_int.
  change (2 ^ 63) with 9223372036854775808.
  change (2 ^ 64) with 18446744073709551616.
  intros Hz. rewrite Z.mod_small by lia. lia.
Qed.

(** [strconv.ParseInt] reads back the text [fmtInteger] writes for any
    [int]. *)
Lemma ParseInt_fmtInteger (v : Z) : is_int v -> ParseInt (fmtInteger v) = inr v.
Proof.
  intros Hv. pose proof Hv as Hv'.
  unfold is_int, minInt, maxInt in Hv'.
  change (2 ^ 63) with 9223372036854775808 in Hv'.
  unfold fmtInteger, wrap64.
  change (2 ^ 64) with 18446744073709551616.
  destruct (Z.ltb_spec v 0) as [Hneg|Hpos].
  - assert (Hu : (- (v mod 18446744073709551616)) mod 18446744073709551616 = - v).
    { replace (v mod 18446744073709551616) with (v + 18446744073709551616).
      - replace (- (v + 18446744073709551616))
          with (- v + (-1) * 18446744073709551616) by lia.
        rewrite Z.mod_add by lia. apply Z.mod_small. lia.
      - symmetry. replace v with (v + 18446744073709551616 + (-1) * 18446744073709551616) at 1 by lia.
        rewrite Z.mod_add by lia. apply Z.mod_small. lia. }
    rewrite Hu. unfold ParseInt.
    change (Ascii.eqb "-" "+") with false. change (Ascii.eqb "-" "-") with true.
    cbv iota beta.
    rewrite ParseUint_fmt_digits
      by (unfold maxUint64; change (2 ^ 64) with 18446744073709551616; lia).
    change (2 ^ 63) with 9223372036854775808.
    cbn [negb andb].
    replace (9223372036854775808 <? - v) with false
      by (symmetry; apply Z.ltb_ge; lia).
    rewrite Z.opp_involutive, to_int_small by exact Hv. reflexivity.
  - rewrite Z.mod_small by lia.
    destruct (fmt_digits_S_head 67 v ltac:(lia)) as (c & rest & Heq & Hc).
    destruct (digit_not_sign c Hc) as [Hplus Hminus].
    unfold ParseInt. rewrite Heq, Hplus, Hminus, <- Heq.
    cbv iota beta.
    rewrite ParseUint_fmt_digits
      by (unfold maxUint64; change (2 ^ 64) with 18446744073709551616; lia).
    change (2 ^ 63) with 9223372036854775808.
    cbn [negb andb].
    replace (9223372036854775808 <=? v) with false
      by (symmetry; apply Z.leb_gt; lia).
    rewrite to_int_small by exact Hv. reflexivity.
Qed.

Lemma strconv_Atoi_fmtInteger (v : Z) :
  is_int v -> strconv_Atoi (fmtInteger v) = inr v.
Proof.
  intros Hv. unfold strconv_Atoi. rewrite ParseInt_fmtInteger by exact Hv.
  reflexivity.
Qed.

(** ** White space: text without space bytes is left as it is *)

Lemma solid_spec (c : ascii) :
  solid c = true -> byte_val c < 128 /\ asciiSpace c = false.
Proof.
  unfold solid. intros H. apply andb_prop in H as [H1 H2].
  apply Z.ltb_lt in H1. apply negb_true_iff in H2. auto.
Qed.

Ltac decide_bytes :=
  repeat match goal with
    | |- context [?x =? ?y] =>
        first [ replace (x =? y) with false by (symmetry; apply Z.eqb_neq; lia)
              | destruct (x =? y) ]
    | |- context [?x <=? ?y] =>
        first [ replace (x <=? y) with false by (symmetry; apply Z.leb_gt; lia)
              | destruct (x <=? y) ]
    end.

Lemma trimLeft_solid (c : ascii) (r : list ascii) :
  solid c = true -> trimLeft (c :: r) = c :: r.
Proof.
  intros H. apply solid_spec in H as [Hlt Hsp].
  cbn [trimLeft]. rewrite Hsp.
  destruct r as [|c2 [|c3 r]]; try reflexivity.
  - unfold space2. decide_bytes; reflexivity.
  - unfold space2, space3. decide_bytes; reflexivity.
Qed.

Lemma trimRight_rev_solid (c : ascii) (r : list ascii) :
  solid c = true -> trimRight_rev (c :: r) = c :: r.
Proof.
  intros H. apply solid_spec in H as [Hlt Hsp].
  cbn [trimRight_rev]. rewrite Hsp.
  destruct r as [|c2 [|c3 r]]; try reflexivity.
  - unfold space2. decide_bytes; reflexivity.
  - unfold space2, space3. decide_bytes; reflexivity.
Qed.

Lemma strings_TrimSpace_solid (s : string) :
  forallb solid (list_ascii_of_string s) = true -> strings_TrimSpace s = s.
Proof.
  intros Hall. unfold strings_TrimSpace.
  rewrite <- (string_of_list_ascii_of_string s) at 2. f_equal.
  set (l := list_ascii_of_string s) in *.
  assert (Hl : trimLeft l = l).
  { destruct l as [|c r]; [reflexivity|]. apply trimLeft_solid.
    cbn in Hall. apply andb_prop in Hall. tauto. }
  rewrite Hl.
  assert (Hr : trimRight_rev (rev l) = rev l).
  { destruct (rev l) as [|c r] eqn:Hrev; [reflexivity|].
    apply trimRight_rev_solid.
    apply (proj1 (forallb_forall solid l) Hall).
    apply in_rev. rewrite Hrev. left. reflexivity. }
  rewrite Hr. apply rev_involutive.
Qed.

Lemma is_digit_solid (c : ascii) : is_digit c = true -> solid c = true.
Proof.
  unfold is_digit, solid, asciiSpace. intros H.
  apply andb_prop in H as [H1 H2]. apply Z.leb_le in H1, H2.
  replace (byte_val c <? 128) with true by (symmetry; apply Z.ltb_lt; lia).
  decide_bytes. reflexivity.
Qed.

Lemma fmt_digits_solid (fuel : nat) :
  forall (u : Z) (buf : string),
    0 <= u ->
    forallb solid (list_ascii_of_string buf) = true ->
    forallb solid (list_ascii_of_string (fmt_digits fuel u buf)) = true.
Proof.
  induction fuel as [|fuel IH]; intros u buf Hu Hbuf; cbn [fmt_digits].
  - exact Hbuf.
  - pose proof (Z.div_mod u 10 ltac:(lia)) as Hdm.
    pose proof (Z.mod_pos_bound u 10 ltac:(lia)) as Hmod.
    destruct (Z.leb_spec 10 u) as [Hge|Hlt].
    + apply IH; [apply Z.div_pos; lia|].
      cbn [list_ascii_of_string forallb]. rewrite Hbuf, andb_true_r.
      apply is_digit_solid.
      replace (48 + u - u / 10 * 10) with (48 + (u - u / 10 * 10)) by lia.
      apply is_digit_byte_of. lia.
    + cbn [list_ascii_of_string forallb]. rewrite Hbuf, andb_true_r.
      apply is_digit_solid, is_digit_byte_of. lia.
Qed.

Lemma Sprintf_v_d_solid (v : Z) :
  is_int v -> forallb solid (list_ascii_of_string (Sprintf_v_d v)) = true.
Proof.
  intros Hv. unfold is_int, minInt, maxInt in Hv.
  change (2 ^ 63) with 9223372036854775808 in Hv.
  unfold Sprintf_v_d, fmtInteger, wrap64.
  change (2 ^ 64) with 18446744073709551616.
  cbn [String.append list_ascii_of_string forallb].
  change (solid "v") with true. cbn [andb].
  destruct (Z.ltb_spec v 0) as [Hneg|Hpos].
  - cbn [list_ascii_of_string forallb]. change (solid "-") with true.
    cbn [andb]. apply fmt_digits_solid; [|reflexivity].
    apply Z.mod_pos_bound. lia.
  - apply fmt_digits_solid; [|reflexivity]. apply Z.mod_pos_bound. lia.
Qed.

(** The version file reads back: trimming leaves ["v<Version>"] as it
    is, the slice drops the [v], and [Atoi] gives the version. *)
Lemma version_file_roundtrip (v : Z) :
  is_int v ->
  slice_from_1 (strings_TrimSpace (Sprintf_v_d v)) = Some (fmtInteger v) /\
  strconv_Atoi (fmtInteger v) = inr v.
Proof.
  intros Hv. split.
  - rewrite strings_TrimSpace_solid by (apply Sprintf_v_d_solid, Hv).
    reflexivity.
  - apply strconv_Atoi_fmtInteger, Hv.
Qed.

(** ** Paths *)

Lemma append_assoc (a b c : string) : (a ++ b) ++ c = a ++ (b ++ c).
Proof. induction a as [|x a IH]; cbn [String.append]; congruence. Qed.

Lemma append_inj (a b c : string) : a ++ b = a ++ c -> b = c.
Proof.
  induction a as [|x a IH]; cbn [String.append]; intros H; [exact H|].
  injection H as H. apply IH, H.
Qed.

Lemma strings_Join_cons (b : string) (l : list string) :
  strings_Join (b :: l) DirectorySeparator
  = b ++ fold_right (fun e out => DirectorySeparator ++ e ++ out) "" l.
Proof.
  revert b. induction l as [|e l IH]; intros b.
  - cbn [strings_Join fold_right].
    induction b as [|x b IHb]; cbn [String.append]; congruence.
  - change (strings_Join (b :: e :: l) DirectorySeparator)
      with (b ++ DirectorySeparator ++ strings_Join (e :: l) DirectorySeparator).
    rewrite IH. cbn [fold_right]. reflexivity.
Qed.

Lemma PathJoin_joined (basepath : string) (elem : list string) :
  PathJoin basepath elem = basepath ++ joined elem.
Proof.
  unfold PathJoin. rewrite strings_Join_cons. f_equal.
  induction elem as [|e elem IH]; cbn [map fold_right joined]; [reflexivity|].
  unfold joined in IH. rewrite IH. reflexivity.
Qed.

Lemma escape_byte_no_separator (c : ascii) : has_byte "/" (escape_byte c) = false.
Proof.
  destruct c as [[] [] [] [] [] [] [] []]; vm_compute; reflexivity.
Qed.

Lemma has_byte_append (c : ascii) (a b : string) :
  has_byte c (a ++ b) = has_byte c a || has_byte c b.
Proof.
  unfold has_byte.
  induction a as [|x a IH]; cbn [String.append list_ascii_of_string existsb];
    [reflexivity|].
  rewrite IH. apply orb_assoc.
Qed.

Lemma url_QueryEscape_no_separator (e : string) :
  has_byte "/" (url_QueryEscape e) = false.
Proof.
  induction e as [|c e IH]; cbn [url_QueryEscape]; [reflexivity|].
  rewrite has_byte_append, escape_byte_no_separator, IH. reflexivity.
Qed.

Lemma Storage_Path_file_inj (s : Storage) (name f1 f2 : string) :
  Storage_Path s [name; f1] = Storage_Path s [name; f2] ->
  url_QueryEscape f1 = url_QueryEscape f2.
Proof.
  unfold Storage_Path. rewrite !PathJoin_joined. cbn [joined fold_right].
  intros Heq. apply append_inj in Heq. cbn [String.append DirectorySeparator] in Heq.
  injection Heq as Heq. apply append_inj in Heq.
  cbn [String.append] in Heq. injection Heq as Heq.
  revert Heq. generalize (url_QueryEscape f1) (url_QueryEscape f2).
  intros a. induction a as [|x a IH]; intros [|y b]; cbn [String.append];
    intros Heq; try discriminate; [reflexivity|].
  injection Heq as -> Heq. f_equal. apply IH, Heq.
Qed.

(** ** The encoder *)

Section Encoder.
Context `{codec : Codec}.

(** The entries of a successful encoding, in their order. *)
Lemma treeEntries_inr (s : Storage) (app : App) (entries : list TreeEntry) :
  treeEntries s app = inr entries ->
  exists envPart fmPart,
    env_entries s app envPart /\ formation_entries s app fmPart /\
    entries =
      (blob (Storage_Path s [Name app; FileVersion]) (Sprintf_v_d (Version app))
       :: envPart ++ image_entries s app ++ fmPart)%list.
Proof.
  unfold treeEntries, env_entries, formation_entries, image_entries, and_then.
  destruct (Environment app) as [env|];
    [destruct (dotenv_Write env) as [err|envFile]; [discriminate|]|];
    (destruct (Formation app) as [fm|];
     [destruct (jsonMarshal fm) as [err'|formation]; [discriminate|]|]);
    intros Heq; injection Heq as <-;
    destruct (Image app); do 2 eexists; repeat split; eauto.
Qed.

(** The encoder fails exactly when one of the two serializers does. *)
Lemma treeEntries_inl (s : Storage) (app : App) (err : error) :
  treeEntries s app = inl err <->
  (exists env, Environment app = Some env /\ dotenv_Write env = inl err) \/
  ((forall env, Environment app = Some env -> exists t, dotenv_Write env = inr t) /\
   exists fm, Formation app = Some fm /\ jsonMarshal fm = inl err).
Proof.
  unfold treeEntries, and_then.
  destruct (Environment app) as [env|];
    [destruct (dotenv_Write env) as [e1|envFile] eqn:Hw|];
    (destruct (Formation app) as [fm|];
     [destruct (jsonMarshal fm) as [e2|formation] eqn:Hm|]);
    split; intros Hyp;
    repeat match goal with
      | H : _ \/ _ |- _ => destruct H
      | H : _ /\ _ |- _ => destruct H
      | H : exists _, _ |- _ => destruct H
      | H : Some _ = Some _ |- _ => injection H as ->
      | H : inl _ = inl _ |- _ => injection H as ->
      | H : forall env, Some ?x = Some env -> _ |- _ =>
          specialize (H x eq_refl)
      end;
    try congruence; eauto 8.
  all: try (right; split; [intros ? [=<-]; eauto | eauto]).
  all: try (right; split; [intros ? [=] | eauto]).
Qed.
End Encoder.

Ltac clash :=
  match goal with
  | H : Storage_Path _ [_; _] = Storage_Path _ [_; _] |- _ =>
      apply Storage_Path_file_inj in H; vm_compute in H; discriminate H
  | H : Path (blob _ _) = _ |- _ => cbn [Path blob] in H; clash
  end.

Ltac members :=
  repeat match goal with
    | H : _ \/ _ |- _ => destruct H as [H|H]
    | H : False |- _ => destruct H
    | H : _ /\ _ |- _ => destruct H
    | H : exists _, _ |- _ => destruct H
    | H : In _ _ |- _ => progress cbn [In Datatypes.app] in H
    | _ => progress subst
    end.

(** C1, as stated, fails here: the encoder does not produce a VERSION
    entry for every application.  For an application whose environment
    cannot be written it returns the error of the writer and no entry
    at all. *)
Lemma treeEntries_without_VERSION :
  Environment Scenario.unwritable <> None /\
  @treeEntries SpecCodec.codec Scenario.storage Scenario.unwritable
  = inl (libError "dotenv" "malformed value") /\
  forall entries,
    @treeEntries SpecCodec.codec Scenario.storage Scenario.unwritable
    <> inr entries.
Proof.
  assert (Henc : @treeEntries SpecCodec.codec Scenario.storage
                   Scenario.unwritable
                 = inl (libError "dotenv" "malformed value"))
    by (vm_compute; reflexivity).
  split; [discriminate|]. split; [exact Henc|].
  intros entries Hentries. rewrite Henc in Hentries. discriminate Hentries.
Qed.

(** C1 (amended). For every application for which the encoder yields
    entries, the entries hold the VERSION file, once, whose content is
    [v] followed by the decimal version and nothing else (it reads back
    as the version), and hold [app.env], [image.txt] and
    [services.json] exactly when the environment, the image and the
    formation are not nil; the encoder yields entries whenever the two
    serializers do not fail, and when one of them fails it returns that
    error and no entry.  For the application [web] at version 0 with
    environment FOO=bar, no image and no formation, a release builds
    exactly the two entries [base/web/VERSION] = [v1] and
    [base/web/app.env] = [FOO=bar] with its line end. *)
Theorem treeEntries_files :
  (forall (codec : Codec) (s : Storage) (app : App) (entries : list TreeEntry),
     treeEntries s app = inr entries ->
     let holds file e :=
       In e entries /\ Path e = Storage_Path s [Name app; file] in
     (exists e, holds FileVersion e /\
                Content e = String "v" (fmtInteger (Version app)) /\
                forall e', holds FileVersion e' -> e' = e) /\
     (is_int (Version app) ->
      strconv_Atoi (fmtInteger (Version app)) = inr (Version app)) /\
     ((exists e, holds FileEnv e) <-> Environment app <> None) /\
     ((exists e, holds FileImage e) <-> Image app <> None) /\
     ((exists e, holds FileServices e) <-> Formation app <> None)) /\
  (forall (codec : Codec) (s : Storage) (app : App),
     (forall env, Environment app = Some env ->
                  exists envFile, dotenv_Write env = inr envFile) ->
     (forall fm, Formation app = Some fm ->
                 exists formation, jsonMarshal fm = inr formation) ->
     exists entries, treeEntries s app = inr entries) /\
  (forall (codec : Codec) (s : Storage) (app : App) (err : error),
     treeEntries s app = inl err <->
     (exists env, Environment app = Some env /\ dotenv_Write env = inl err) \/
     ((forall env, Environment app = Some env ->
                   exists envFile, dotenv_Write env = inr envFile) /\
      exists fm, Formation app = Some fm /\ jsonMarshal fm = inl err)) /\
  (treeEntries Scenario.storage (set_Version 1 Scenario.web)
   = inr Scenario.web_entries /\
   match Scenario.release Scenario.web "release" with
   | (Ok rel, w') =>
       Version (Release_App rel) = 1 /\
       calls w' =
         [ (CallGetRef "heads/master", true);
           (CallGetCommit "c0", true);
           (CallCreateTree "t0" Scenario.web_entries, true);
           (CallCreateCommit "release" {| Tree_SHA := "tree1" |} [Fake.root],
            true);
           (CallMerge "heads/master" "commit2", true) ]
   | _ => False
   end).
Proof.
  split.
  - intros codec s app entries Henc holds.
    destruct (treeEntries_inr s app entries Henc)
      as (envPart & fmPart & Henv & Hfm & ->).
    unfold env_entries in Henv. unfold formation_entries in Hfm.
    unfold image_entries in *. subst holds. cbv beta.
    split; [|split; [apply strconv_Atoi_fmtInteger|]].
    + eexists. split; [split; [left; reflexivity|reflexivity]|].
      split; [reflexivity|].
      intros e' [Hin Hpath]. destruct Hin as [<-|Hin]; [reflexivity|].
      destruct (Environment app), (Image app), (Formation app);
        members; subst; clash.
    + repeat split; intros Hyp.
      all: destruct (Environment app) as [env|],
             (Image app) as [img|], (Formation app) as [fm|];
        members; subst; try clash; try congruence.
      all: match goal with
           | |- exists e, (In e ?l /\ Path e = ?p) =>
               match l with
               | context [blob p ?c] => exists (blob p c)
               end
           end; split; [cbn [In Datatypes.app]; tauto|reflexivity].
  - split.
    { intros codec s app Henv Hfm.
      destruct (treeEntries s app) as [err|entries] eqn:Henc; [|eauto].
      apply treeEntries_inl in Henc
        as [(env & HE & Hw)|(_ & fm & HF & Hm)]; exfalso.
      - destruct (Henv env HE) as (t & Ht). congruence.
      - destruct (Hfm fm HF) as (t & Ht). congruence. }
    split; [intros codec s app err; apply treeEntries_inl|].
    split; [vm_compute; reflexivity|].
    vm_compute. split; reflexivity.
Qed.

(** ** The decoder *)

Lemma Storage_Path_eqb (s : Storage) (name f1 f2 : string) :
  String.eqb (Storage_Path s [name; f1]) (Storage_Path s [name; f2])
  = String.eqb (url_QueryEscape f1) (url_QueryEscape f2).
Proof.
  destruct (String.eqb_spec (url_QueryEscape f1) (url_QueryEscape f2)) as [Heq|Hne].
  - apply String.eqb_eq. unfold Storage_Path. rewrite !PathJoin_joined.
    cbn [joined fold_right]. rewrite Heq. reflexivity.
  - apply String.eqb_neq. intros Heq. apply Hne.
    apply (Storage_Path_file_inj s name), Heq.
Qed.

Lemma fileContent_file (f : contentFetcher) (path : string)
    (c : RepositoryContent) (raw : string) :
  f [path] = ContentsFile c -> Decode c = inr raw -> fileContent f path = Ok raw.
Proof. intros Hf Hd. unfold fileContent. rewrite Hf, Hd. reflexivity. Qed.

Lemma fileContent_missing (f : contentFetcher) (path : string) (err : error) :
  f [path] = ContentsErr err ->
  fileContent f path = Err (fmt_Errorf "get contents of %q: %v" [path] err).
Proof. intros Hf. unfold fileContent. rewrite Hf. reflexivity. Qed.

Ltac run_loadApp :=
  unfold loadApp, decodeFile;
  repeat (progress unfold bind, get, lift, try, modify, ret, fail);
  cbn [Name Version Environment Image Formation named
       set_Version set_Formation set_Image set_Environment fst snd].

(** C2. An application with an environment, an image and a formation,
    whose version is an [int] and whose three texts the codecs read
    back, decodes from a fetcher serving its encoding to an application
    with the same version, environment, image and formation. *)
Theorem loadApp_treeEntries_roundtrip `{Codec} (s : Storage) (A : App)
    (f : contentFetcher) (entries : list TreeEntry)
    (env : gmap string string) (img : image_Image) (fm : empire_Formation)
    (envFile formation : string) :
  is_int (Version A) ->
  Environment A = Some env -> Image A = Some img -> Formation A = Some fm ->
  dotenv_Write env = inr envFile -> dotenv_Read envFile = inr (Some env) ->
  image_Decode (image_String img) = inr img ->
  jsonMarshal fm = inr formation ->
  json_Unmarshal formation None = (None, Some fm) ->
  treeEntries s A = inr entries ->
  serves f s (Name A) entries ->
  exists A',
    loadApp f (named (Name A)) = (Ok A', A') /\
    Version A' = Version A /\ Environment A' = Environment A /\
    Image A' = Image A /\ Formation A' = Formation A.
Proof.
  intros Hint HE HI HF Hw Hr Himg Hm Hu Henc Hserves.
  apply treeEntries_inr in Henc as (envPart & fmPart & Henv & Hfm & ->).
  unfold env_entries in Henv. unfold formation_entries in Hfm.
  unfold image_entries in Hserves.
  rewrite HE in Henv. rewrite HF in Hfm. rewrite HI in Hserves.
  destruct Henv as (envFile' & Hw' & ->). destruct Hfm as (formation' & Hm' & ->).
  assert (envFile' = envFile) as -> by congruence.
  assert (formation' = formation) as -> by congruence.
  assert (Hfile : forall file, In file [FileVersion; FileServices; FileImage; FileEnv] ->
            exists raw, fileContent f (PathJoin (Name A) [file]) = Ok raw /\
              ((file = FileVersion /\ raw = Sprintf_v_d (Version A)) \/
               (file = FileServices /\ raw = formation) \/
               (file = FileImage /\ raw = image_String img) \/
               (file = FileEnv /\ raw = envFile))).
  { intros file Hin. specialize (Hserves file Hin). unfold entry_at in Hserves.
    cbn [In] in Hin.
    destruct Hin as [<-|[<-|[<-|[<-|[]]]]];
      cbn [List.find Datatypes.app Path blob] in Hserves;
      rewrite ?Storage_Path_eqb in Hserves;
      vm_compute (String.eqb (url_QueryEscape _) (url_QueryEscape _)) in Hserves;
      cbv iota in Hserves;
      destruct Hserves as (c & Hf & Hd); cbn [Content blob] in Hd;
      eexists; (split; [eapply fileContent_file; eassumption|]); tauto. }
  destruct (Hfile FileVersion ltac:(cbn; tauto)) as (rawV & HcV & HV).
  destruct (Hfile FileServices ltac:(cbn; tauto)) as (rawS & HcS & HS).
  destruct (Hfile FileImage ltac:(cbn; tauto)) as (rawI & HcI & HI').
  destruct (Hfile FileEnv ltac:(cbn; tauto)) as (rawE & HcE & HE').
  assert (rawV = Sprintf_v_d (Version A)) as ->
    by (destruct HV as [[_ ->]|[[Hx _]|[[Hx _]|[Hx _]]]]; [reflexivity|discriminate..]).
  assert (rawS = formation) as ->
    by (destruct HS as [[Hx _]|[[_ ->]|[[Hx _]|[Hx _]]]]; [discriminate|reflexivity|discriminate..]).
  assert (rawI = image_String img) as ->
    by (destruct HI' as [[Hx _]|[[Hx _]|[[_ ->]|[Hx _]]]];
        [discriminate..|reflexivity|discriminate]).
  assert (rawE = envFile) as ->
    by (destruct HE' as [[Hx _]|[[Hx _]|[[Hx _]|[_ ->]]]];
        [discriminate..|reflexivity]).
  destruct (version_file_roundtrip (Version A) Hint) as [Hslice Hatoi].
  eexists. split.
  - run_loadApp. rewrite HcV, Hslice. run_loadApp. rewrite Hatoi.
    run_loadApp. rewrite HcS. run_loadApp. rewrite Hu. run_loadApp.
    rewrite HcI, Himg. run_loadApp. rewrite HcE, Hr. reflexivity.
  - cbn [Version Environment Image Formation]. rewrite HE, HI, HF. auto.
Qed.

Ltac break_goal :=
  repeat (cbv beta iota;
          match goal with
          | |- context [match ?x with _ => _ end] =>
              lazymatch x with
              | context [match _ with _ => _ end] => fail
              | _ => destruct x eqn:?
              end
          end).

(** C10. When the VERSION file is there and its content trims to the
    empty string, the decoder panics on the slice instead of returning
    an error; the slice has a value exactly when the trimmed content is
    not empty, and then the decoder does not panic on it. *)
Theorem loadApp_blank_version_panics `{Codec} (f : contentFetcher) (app : App)
    (c : RepositoryContent) (raw : string) :
  f [PathJoin (Name app) [FileVersion]] = ContentsFile c ->
  Decode c = inr raw ->
  (strings_TrimSpace raw = "" ->
   loadApp f app = (Panic "slice bounds out of range [1:0]", app)) /\
  (slice_from_1 (strings_TrimSpace raw) = None <-> strings_TrimSpace raw = "") /\
  (strings_TrimSpace raw <> "" ->
   forall st, loadApp f app <> (Panic "slice bounds out of range [1:0]", st)).
Proof.
  intros Hf Hd. pose proof (fileContent_file _ _ _ _ Hf Hd) as Hc.
  split; [|split].
  - intros Hblank. run_loadApp. rewrite Hc, Hblank. reflexivity.
  - destruct (strings_TrimSpace raw); cbn [slice_from_1]; split; congruence.
  - intros Hne st. run_loadApp. rewrite Hc.
    destruct (strings_TrimSpace raw) as [|c0 sfx]; [congruence|].
    cbn [slice_from_1]. unfold fileContent.
    break_goal; cbv beta iota; congruence.
Qed.

(** C6, as stated, fails here: the version file is there and holds a
    decimal number, and the decoder fails all the same, on the missing
    [services.json]. *)
Lemma loadApp_fails_after_version :
  Scenario.only_version ["web/VERSION"] = Fake.file "v1" /\
  slice_from_1 (strings_TrimSpace "v1") = Some "1" /\
  strconv_Atoi "1" = inr 1 /\
  fst (Scenario.decode Scenario.only_version "web")
  = Err (fmt_Errorf "get contents of %q: %v" ["web/services.json"]
           (libError "github" "404 Not Found")).
Proof. repeat split; vm_compute; reflexivity. Qed.

(** C6 (amended). The decoder fails with an error whenever the VERSION
    file cannot be had or what follows the first byte of its trimmed
    content is not a decimal integer for [Atoi]; when the version file
    is read and parsed, any error of the decoder comes from one of the
    three other files; and when the decoder succeeds, the parsed integer
    is the application's version. *)
Theorem loadApp_version `{Codec} (f : contentFetcher) (app : App) :
  (forall err,
     fileContent f (PathJoin (Name app) [FileVersion]) = Err err ->
     loadApp f app = (Err err, app)) /\
  (forall sfx err,
     version_suffix f (Name app) sfx -> strconv_Atoi sfx = inl err ->
     loadApp f app = (Err err, app)) /\
  (forall sfx vi err st,
     version_suffix f (Name app) sfx -> strconv_Atoi sfx = inr vi ->
     loadApp f app = (Err err, st) ->
     fileContent f (PathJoin (Name app) [FileServices]) = Err err \/
     (exists raw, fileContent f (PathJoin (Name app) [FileServices]) = Ok raw /\
                  fst (json_Unmarshal raw (Formation app)) = Some err) \/
     fileContent f (PathJoin (Name app) [FileImage]) = Err err \/
     (exists raw, fileContent f (PathJoin (Name app) [FileImage]) = Ok raw /\
                  image_Decode raw = inl err) \/
     fileContent f (PathJoin (Name app) [FileEnv]) = Err err \/
     (exists raw, fileContent f (PathJoin (Name app) [FileEnv]) = Ok raw /\
                  dotenv_Read raw = inl err)) /\
  (forall app' st,
     loadApp f app = (Ok app', st) ->
     exists sfx,
       version_suffix f (Name app) sfx /\
       strconv_Atoi sfx = inr (Version app')).
Proof.
  repeat split.
  - intros err Hc. run_loadApp. rewrite Hc. reflexivity.
  - intros sfx err (raw & Hc & Hs) Ha. run_loadApp.
    rewrite Hc, Hs. run_loadApp. rewrite Ha. reflexivity.
  - intros sfx vi err st (raw & Hc & Hs) Ha. run_loadApp.
    rewrite Hc, Hs. run_loadApp. rewrite Ha. run_loadApp.
    destruct (fileContent f (PathJoin (Name app) [FileServices]))
      as [rawS|eS|mS]; [|intros [= <- _]; tauto|discriminate].
    destruct (json_Unmarshal rawS (Formation app)) as [[eU|] fm'] eqn:HU;
      [intros [= <- _]; right; left; exists rawS; rewrite HU; auto|].
    run_loadApp.
    destruct (fileContent f (PathJoin (Name app) [FileImage]))
      as [rawI|eI|mI]; [|intros [= <- _]; tauto|discriminate].
    destruct (image_Decode rawI) as [eD|img] eqn:HD;
      [intros [= <- _]; do 3 right; left; eauto|].
    run_loadApp.
    destruct (fileContent f (PathJoin (Name app) [FileEnv]))
      as [rawE|eE|mE]; [|intros [= <- _]; tauto|discriminate].
    destruct (dotenv_Read rawE) as [eR|env] eqn:HR;
      [intros [= <- _]; do 5 right; eauto|discriminate].
  - intros app' st. unfold version_suffix. run_loadApp.
    destruct (fileContent f (PathJoin (Name app) [FileVersion]))
      as [raw|e|m]; [|discriminate..].
    destruct (slice_from_1 (strings_TrimSpace raw)) as [sfx|] eqn:Hs;
      [|discriminate].
    run_loadApp. destruct (strconv_Atoi sfx) as [e|vi] eqn:Ha; [discriminate|].
    run_loadApp. unfold fileContent.
    break_goal; cbv beta iota; try discriminate.
    intros [= <- _]. exists sfx. split; [exists raw; auto|exact Ha].
Qed.

(** C7, as stated, fails here: [services.json] is malformed, the
    decoder's error is the JSON error, and [services.json] is nowhere
    in it. *)
Lemma loadApp_json_error_without_path :
  Scenario.broken_services ["web/services.json"] = Fake.file "{" /\
  match fst (Scenario.decode Scenario.broken_services "web") with
  | Err e =>
      e = libError "json" "malformed JSON" /\
      error_mentions FileServices e = false
  | _ => False
  end.
Proof. split; vm_compute; [reflexivity|split; reflexivity]. Qed.

(** C7 (amended). When the version file is read and parsed and
    [services.json] is there with malformed JSON, the decoder returns
    the JSON decoder's error as it is, and no application. *)
Theorem loadApp_malformed_services `{Codec} (f : contentFetcher) (app : App)
    (sfx raw : string) (vi : Z) (err : error) (fm' : option empire_Formation) :
  version_suffix f (Name app) sfx ->
  strconv_Atoi sfx = inr vi ->
  fileContent f (PathJoin (Name app) [FileServices]) = Ok raw ->
  json_Unmarshal raw (Formation app) = (Some err, fm') ->
  loadApp f app = (Err err, set_Formation fm' (set_Version vi app)).
Proof.
  intros (rawV & Hc & Hs) Ha HcS HU. run_loadApp.
  rewrite Hc, Hs. run_loadApp. rewrite Ha. run_loadApp.
  rewrite HcS. run_loadApp. rewrite HU. reflexivity.
Qed.

(** ** The release committer *)

Ltac run_release :=
  unfold ReleasesCreate;
  repeat (progress unfold bind, get, modify, ret, try, fail,
            remote_read, remote_write, on_app);
  cbn [the_app remote calls fst snd].

Section Committer.
Context `{codec : Codec} {R : Type} `{github : GitHub R}.

Lemma new_calls_app (before added : list (call * bool)) :
  new_calls before (before ++ added)%list = added.
Proof. unfold new_calls. apply drop_app_length. Qed.

Lemma to_int_succ (v : Z) : is_int v -> v < maxInt -> to_int (v + 1) = v + 1.
Proof.
  intros Hv Hlt. apply to_int_small. unfold is_int, minInt, maxInt in *. lia.
Qed.

(** A successful release leaves the incremented application in the
    caller's hands and returns it with the description. *)
Lemma ReleasesCreate_Ok (s : Storage) (description : string) (w w' : world)
    (rel : Release) :
  ReleasesCreate s description w = (Ok rel, w') ->
  the_app w' = incremented (the_app w) /\
  rel = mkRelease (incremented (the_app w)) description None.
Proof.
  run_release.
  repeat (break_goal; cbn [the_app remote calls]); try discriminate.
  intros [= <- <-]. cbn [the_app]. auto.
Qed.
End Committer.

Ltac failed_call H :=
  exfalso; revert H; rewrite <- ?app_assoc, new_calls_app;
  cbn [all_succeeded forallb Datatypes.app snd andb]; discriminate.

(** C3, as stated, fails here: the remote calls all succeed, and the
    release does not return the application one version up.  At the
    largest [int] the version wraps to the smallest, and an environment
    that cannot be written gives an error after two successful
    look-ups. *)
Lemma ReleasesCreate_not_incremented :
  match Scenario.release Scenario.web_at_max "release" with
  | (Ok rel, w') =>
      all_succeeded (calls w') = true /\
      Version Scenario.web_at_max = 9223372036854775807 /\
      Version (Release_App rel) = -9223372036854775808
  | _ => False
  end /\
  match Scenario.release Scenario.unwritable "release" with
  | (Err e, w') =>
      all_succeeded (calls w') = true /\
      e = fmt_Errorf "generating tree: %v" []
            (libError "dotenv" "malformed value")
  | _ => False
  end.
Proof. split; vm_compute; repeat split; reflexivity. Qed.

(** C3 (amended). When every remote call succeeds and the tree entries
    can be encoded, [ReleasesCreate] returns a release whose application
    is the input application at the incremented version, with the given
    description; the increment is by exactly 1 below the largest [int];
    and N consecutive successful releases from version V0 leave the
    version at V0 + N, as long as that is an [int]. *)
Theorem ReleasesCreate_increments `{Codec} {R : Type} `{GitHub R} (s : Storage) :
  (forall description w res w' entries,
     ReleasesCreate s description w = (res, w') ->
     all_succeeded (new_calls (calls w) (calls w')) = true ->
     treeEntries s (incremented (the_app w)) = inr entries ->
     res = Ok (mkRelease (incremented (the_app w)) description None) /\
     the_app w' = incremented (the_app w) /\
     (is_int (Version (the_app w)) -> Version (the_app w) < maxInt ->
      Version (incremented (the_app w)) = Version (the_app w) + 1)) /\
  (forall descriptions w w',
     releases s descriptions w w' ->
     is_int (Version (the_app w)) ->
     Version (the_app w) + Z.of_nat (List.length descriptions) <= maxInt ->
     Version (the_app w')
     = Version (the_app w) + Z.of_nat (List.length descriptions)).
Proof.
  split.
  - intros description w res w' entries Hrun Hall Henc.
    split; [|split; [|intros Hv Hlt; apply to_int_succ; assumption]].
    + revert Hrun Hall. unfold incremented in *. run_release.
      repeat (break_goal; cbn [the_app remote calls]);
        intros [= <- <-]; cbn [calls]; intros Hall;
        cbn [the_app remote calls] in *;
        try reflexivity; try congruence; failed_call Hall.
    + revert Hrun Hall. unfold incremented in *. run_release.
      repeat (break_goal; cbn [the_app remote calls]);
        intros [= <- <-]; cbn [calls the_app]; intros Hall;
        reflexivity.
  - intros descriptions w w' Hruns.
    induction Hruns as [w|description rest w rel w1 w' Hrun Hruns IH];
      intros Hv Hmax.
    + cbn [List.length]. lia.
    + apply ReleasesCreate_Ok in Hrun as [Happ _].
      cbn [List.length] in Hmax |- *.
      assert (Hstep : Version (the_app w1) = Version (the_app w) + 1).
      { rewrite Happ. cbn [incremented set_Version Version].
        apply to_int_succ; [exact Hv|]. lia. }
      rewrite IH; rewrite Hstep; unfold is_int, minInt, maxInt in *; lia.
Qed.

(** C5, as stated, fails here: the tree entries cannot be built, and
    the reference and its commit have been looked up on the remote
    repository before the encoder ran. *)
Lemma ReleasesCreate_looks_up_before_encoding :
  treeEntries Scenario.storage (incremented Scenario.unwritable)
  = inl (libError "dotenv" "malformed value") /\
  calls (snd (Scenario.release Scenario.unwritable "release"))
  = [ (CallGetRef "heads/master", true); (CallGetCommit "c0", true) ] /\
  calls (snd (Scenario.release Scenario.unwritable "release")) <> [].
Proof. repeat split; vm_compute; [reflexivity..|discriminate]. Qed.

(** C5 (amended). When building the tree entries fails and the two
    look-ups before it succeeded, [ReleasesCreate] gives that error
    back, wrapped, after exactly these two calls; and whatever the
    look-ups answer, the release ends in an error with the remote
    repository as it was and with no call other than look-ups made:
    no tree, no commit and no merge. *)
Theorem ReleasesCreate_encoding_failure `{Codec} {R : Type} `{GitHub R}
    (s : Storage) (description : string) (w : world) (err : error) :
  treeEntries s (incremented (the_app w)) = inl err ->
  (forall ref lastCommit,
     Git_GetRef (remote w) (Owner s) (Repo s) (Ref s) = inr ref ->
     Git_GetCommit (remote w) (Owner s) (Repo s) (Object_SHA ref)
     = inr lastCommit ->
     ReleasesCreate s description w
     = (Err (fmt_Errorf "generating tree: %v" [] err),
        mkWorld (incremented (the_app w)) (remote w)
          (calls w ++ [ (CallGetRef (Ref s), true);
                        (CallGetCommit (Object_SHA ref), true) ])%list)) /\
  (forall res w',
     ReleasesCreate s description w = (res, w') ->
     (exists e, res = Err e) /\
     remote w' = remote w /\
     forallb (fun c => is_lookup (fst c)) (new_calls (calls w) (calls w'))
     = true).
Proof.
  intros Henc. unfold incremented in *. split.
  - intros ref lastCommit Href Hcommit. run_release.
    rewrite Href. cbn [the_app remote calls]. rewrite Hcommit.
    cbn [the_app remote calls]. rewrite Henc, <- app_assoc. reflexivity.
  - intros res w'. run_release.
    destruct (Git_GetRef (remote w) (Owner s) (Repo s) (Ref s)) as [e1|ref];
      cbn [the_app remote calls].
    + intros [= <- <-]. cbn [remote calls]. rewrite new_calls_app.
      split; [eauto|]. split; reflexivity.
    + destruct (Git_GetCommit (remote w) (Owner s) (Repo s) (Object_SHA ref))
        as [e2|lastCommit]; cbn [the_app remote calls].
      * intros [= <- <-]. cbn [remote calls].
        rewrite <- app_assoc, new_calls_app.
        split; [eauto|]. split; reflexivity.
      * rewrite Henc. intros [= <- <-]. cbn [remote calls].
        rewrite <- app_assoc, new_calls_app.
        split; [eauto|]. split; reflexivity.
Qed.

(** ** The history reader *)

Section History.
Context `{codec : Codec} {R : Type} `{github : GitHub R}.
Variables (r : R) (s : Storage) (name : string).

Lemma Releases_loop_Ok (commits : list RepositoryCommit) :
  forall acc rels,
    Releases_loop r s name commits acc = Ok rels <->
    exists new,
      rels = (acc ++ new)%list /\
      Forall2 (fun commit rel =>
                 release_of commit rel (decoded_at r s name commit))
              commits new.
Proof.
  induction commits as [|commit rest IH]; intros acc rels; cbn [Releases_loop].
  - split.
    + intros [= <-]. exists []. rewrite app_nil_r. split; [reflexivity|constructor].
    + intros (new & -> & Hall). inversion Hall. rewrite app_nil_r. reflexivity.
  - fold (decoded_at r s name commit). split.
    + destruct (decoded_at r s name commit) as [app|e|m] eqn:Hdec;
        [|discriminate..].
      intros Hloop. apply IH in Hloop as (new & -> & Hall).
      eexists (_ :: new). rewrite <- app_assoc. split; [reflexivity|].
      constructor; [|exact Hall]. unfold release_of. rewrite Hdec. auto.
    + intros (new & -> & Hall). inversion Hall as [|c rel cs rels' Hrel Hrest]; subst.
      destruct Hrel as (Hdec & Hdesc & Hdate). rewrite Hdec.
      apply IH. exists rels'. split; [|exact Hrest].
      rewrite <- app_assoc. cbn [Datatypes.app]. do 2 f_equal.
      destruct rel as [a d t]. cbn in Hdesc, Hdate. subst. reflexivity.
Qed.
End History.

(** C8. When the commit log is had, [Releases] returns one release per
    commit of the log, in the log's order, each with the application
    decoded by the fetcher bound to that commit's SHA, the commit's
    message as description and its committer date as creation time; if
    decoding fails at any commit the whole operation fails. *)
Theorem Releases_history `{Codec} {R : Type} `{GitHub R} (r : R) (s : Storage)
    (q : ReleasesQuery) (commits : list RepositoryCommit) :
  Repositories_ListCommits r (Owner s) (Repo s) (Ref s)
    (Storage_Path s [Name (Query_App q); FileVersion]) = inr commits ->
  let decoded commit :=
    fst (loadApp (GetContentsAtRef r s (RepositoryCommit_SHA commit))
           (named (Name (Query_App q)))) in
  (forall rels,
     Releases r s q = Ok rels <->
     Forall2 (fun commit rel => release_of commit rel (decoded commit))
             commits rels) /\
  (forall commit,
     In commit commits -> (forall app, decoded commit <> Ok app) ->
     forall rels, Releases r s q <> Ok rels).
Proof.
  intros Hlog decoded.
  assert (Hiff : forall rels,
            Releases r s q = Ok rels <->
            Forall2 (fun commit rel => release_of commit rel (decoded commit))
                    commits rels).
  { intros rels. unfold Releases. rewrite Hlog.
    rewrite Releases_loop_Ok. cbn [Datatypes.app]. split.
    - intros (new & -> & Hall). exact Hall.
    - intros Hall. exists rels. auto. }
  split; [exact Hiff|].
  intros commit Hin Hfail rels Hok. apply Hiff in Hok.
  clear Hiff Hlog. induction Hok as [|c rel cs rels' Hrel Hrest IH].
  - destruct Hin.
  - destruct Hin as [->|Hin]; [|auto].
    destruct Hrel as (Hdec & _). exact (Hfail _ Hdec).
Qed.

(** ** The app registry *)

Section Registry.
Context `{codec : Codec}.

Lemma filter_spec (apps : list App) (fn : App -> bool) :
  filter apps fn = List.filter fn apps.
Proof.
  unfold filter.
  assert (Hgen : forall acc,
            fold_left (fun filtered app =>
                         if fn app then (filtered ++ [app])%list else filtered)
                      apps acc
            = (acc ++ List.filter fn apps)%list).
  { induction apps as [|a apps IH]; intros acc; cbn [fold_left List.filter].
    - rewrite app_nil_r. reflexivity.
    - rewrite IH. destruct (fn a); [rewrite <- app_assoc|]; reflexivity. }
  apply Hgen.
Qed.

Lemma filterApps_spec (apps : list App) (q : AppsQuery) :
  filterApps apps q = matching q apps.
Proof.
  unfold filterApps, matching. destruct (Query_Name q); [apply filter_spec|reflexivity].
Qed.

Lemma directories_spec (l : list RepositoryContent) :
  fold_left (fun apps f =>
               if String.eqb (Content_Type f) "dir"
               then (apps ++ [named (Content_Name f)])%list else apps) l []
  = directories l.
Proof.
  unfold directories.
  assert (Hgen : forall acc,
            fold_left (fun apps f =>
                         if String.eqb (Content_Type f) "dir"
                         then (apps ++ [named (Content_Name f)])%list else apps)
                      l acc
            = (acc ++ map (fun f => named (Content_Name f))
                        (List.filter (fun f => String.eqb (Content_Type f) "dir") l))%list).
  { induction l as [|f l IH]; intros acc; cbn [fold_left List.filter].
    - cbn [map]. rewrite app_nil_r. reflexivity.
    - rewrite IH. destruct (String.eqb (Content_Type f) "dir");
        [cbn [map]; rewrite <- app_assoc|]; reflexivity. }
  apply Hgen.
Qed.
End Registry.

(** C9. [AppsFind] returns the not-found error when the filtered
    listing is empty, an error of another kind when the listing cannot
    be had, and otherwise what decoding the first application of the
    listing gives, whatever follows it; the listing is the directories
    of the base path that the query keeps, in their order. *)
Theorem AppsFind_first_match `{Codec} {R : Type} `{GitHub R} (r : R)
    (s : Storage) (q : AppsQuery) :
  (forall apps,
     Apps r s q = Ok apps ->
     match apps with
     | [] => AppsFind r s q = Err (NotFoundError (errors_New "app not found"))
     | app :: _ => AppsFind r s q = fst (loadApp (GetContents r s) app)
     end) /\
  (forall err,
     Apps r s q = Err err ->
     AppsFind r s q = Err err /\ is_NotFoundError err = false) /\
  (forall l,
     GetContents r s [] = ContentsDir l ->
     Apps r s q = Ok (matching q (directories l))) /\
  is_NotFoundError (NotFoundError (errors_New "app not found")) = true.
Proof.
  split; [|split; [|split; [|reflexivity]]].
  - intros apps Happs. unfold AppsFind. rewrite Happs.
    destruct apps; reflexivity.
  - intros err Herr. split.
    + unfold AppsFind. rewrite Herr. reflexivity.
    + revert Herr. unfold Apps. destruct (GetContents r s []); [|discriminate..].
      intros [= <-]. reflexivity.
  - intros l Hl. unfold Apps. rewrite Hl, directories_spec, filterApps_spec.
    reflexivity.
Qed.

(** ** Where the joined path lies *)

Lemma strip_prefix_append (b x : string) : strip_prefix b (b ++ x) = Some x.
Proof.
  induction b as [|c b IH]; cbn [String.append strip_prefix].
  - destruct x; reflexivity.
  - rewrite Ascii.eqb_refl. exact IH.
Qed.

Lemma append_nil_r (a : string) : a ++ "" = a.
Proof. induction a as [|c a IH]; cbn [String.append]; congruence. Qed.

Lemma split_elements_plain (a : string) :
  has_byte "/" a = false ->
  forall cur rest,
    split_elements (a ++ rest) cur = split_elements rest (cur ++ a).
Proof.
  unfold has_byte.
  induction a as [|c a IH]; cbn [list_ascii_of_string existsb String.append];
    intros Hno cur rest.
  - rewrite append_nil_r. reflexivity.
  - apply orb_false_elim in Hno as [Hc Ha].
    cbn [split_elements]. rewrite Ascii.eqb_sym, Hc, IH by exact Ha.
    rewrite append_assoc. reflexivity.
Qed.

Lemma split_elements_joined (e : string) (es : list string) :
  forall cur,
    split_elements (url_QueryEscape e ++ joined es) cur
    = (cur ++ url_QueryEscape e) :: map url_QueryEscape es.
Proof.
  revert e. induction es as [|e' es IH]; intros e cur;
    rewrite split_elements_plain by apply url_QueryEscape_no_separator.
  - reflexivity.
  - cbn [joined fold_right DirectorySeparator String.append split_elements map].
    change (Ascii.eqb "/" "/") with true. cbv iota.
    fold (joined es). rewrite IH. reflexivity.
Qed.

Lemma escape_byte_dot (c : ascii) (s t : string) :
  escape_byte c ++ s = String "." t -> c = "."%char /\ s = t.
Proof.
  destruct c as [[] [] [] [] [] [] [] []]; intros Heq; vm_compute in Heq;
    try discriminate Heq.
  injection Heq as ->. split; reflexivity.
Qed.

Lemma escape_byte_nonempty (c : ascii) (s : string) : escape_byte c ++ s <> "".
Proof.
  destruct c as [[] [] [] [] [] [] [] []]; intros Heq; vm_compute in Heq;
    discriminate Heq.
Qed.

Lemma url_QueryEscape_dotdot (e : string) :
  url_QueryEscape e = ".." -> e = "..".
Proof.
  destruct e as [|c1 [|c2 [|c3 e]]]; cbn [url_QueryEscape]; intros Heq.
  - discriminate Heq.
  - apply escape_byte_dot in Heq as [_ Heq]. discriminate Heq.
  - apply escape_byte_dot in Heq as [-> Heq].
    apply escape_byte_dot in Heq as [-> _]. reflexivity.
  - apply escape_byte_dot in Heq as [_ Heq].
    apply escape_byte_dot in Heq as [_ Heq].
    exfalso. exact (escape_byte_nonempty _ _ Heq).
Qed.

Lemma stays_under_no_dotdot (elements : list string) :
  (forall e, In e elements -> e <> "..") ->
  forall depth, stays_under elements depth = true.
Proof.
  induction elements as [|e rest IH]; intros Hno depth; cbn [stays_under];
    [reflexivity|].
  assert (Hrest : forall e', In e' rest -> e' <> "..")
    by (intros e' Hin; apply Hno; right; exact Hin).
  destruct (String.eqb e "" || String.eqb e "."); [apply IH, Hrest|].
  destruct (String.eqb_spec e "..") as [->|_]; [|apply IH, Hrest].
  exfalso. apply (Hno ".."); [left|]; reflexivity.
Qed.

(** Without a component of two dots the joined path is lexically under
    the base path. *)
Lemma PathJoin_under_basepath (basepath : string) (elem : list string) :
  (forall e, In e elem -> e <> "..") ->
  lexically_under basepath (PathJoin basepath elem) = true.
Proof.
  intros Hno. rewrite PathJoin_joined. unfold lexically_under.
  rewrite strip_prefix_append.
  destruct elem as [|e es]; [reflexivity|].
  cbn [joined fold_right DirectorySeparator String.append].
  change (Ascii.eqb "/" "/") with true. cbn [andb].
  fold (joined es). rewrite split_elements_joined.
  apply stays_under_no_dotdot. change ("" ++ url_QueryEscape e) with (url_QueryEscape e).
  change (url_QueryEscape e :: map url_QueryEscape es)
    with (map url_QueryEscape (e :: es)).
  intros x Hin Hx. apply in_map_iff in Hin as (y & <- & Hy).
  apply url_QueryEscape_dotdot in Hx. exact (Hno y Hy Hx).
Qed.

(** C4. [PathJoin] gives the base path followed by one separator
    before each escaped component, and an escaped component has no
    separator; a component of two dots is left as it is, so that the
    result is not lexically under the base path. *)
Theorem PathJoin_dotdot_leaves_basepath :
  (forall basepath elem, PathJoin basepath elem = basepath ++ joined elem) /\
  (forall e, has_byte "/" (url_QueryEscape e) = false) /\
  lexically_under "base" (PathJoin "base" ["a/../../etc"]) = true /\
  url_QueryEscape ".." = ".." /\
  PathJoin "base" [".."] = "base/.." /\
  lexically_under "base" (PathJoin "base" [".."]) = false /\
  PathJoin "base" [".."; FileVersion] = "base/../VERSION" /\
  lexically_under "base" (PathJoin "base" [".."; FileVersion]) = false.
Proof.
  split; [exact PathJoin_joined|].
  split; [exact url_QueryEscape_no_separator|].
  repeat split; reflexivity.
Qed.

(** ** More on the release committer *)

Ltac release_cases :=
  run_release;
  repeat (break_goal; cbn [the_app remote calls]);
  intros [= <- <-]; cbn [the_app remote calls];
  rewrite <- ?app_assoc, ?new_calls_app;
  cbn [Datatypes.app].

(** X1. A release makes its calls in the fixed order ref, commit, tree,
    commit creation, merge, and stops at the first that fails: no call
    follows a failed one, the release succeeds exactly when all five
    calls were made and succeeded, and every error it returns is built
    by [fmt.Errorf]. *)
Theorem ReleasesCreate_stops_at_first_failure `{Codec} {R : Type} `{GitHub R}
    (s : Storage) (description : string) (w w' : world)
    (res : outcome Release) :
  ReleasesCreate s description w = (res, w') ->
  let new := new_calls (calls w) (calls w') in
  calls w' = (calls w ++ new)%list /\
  map (fun c => call_step (fst c)) new = seq 0 (List.length new) /\
  all_succeeded (removelast new) = true /\
  ((exists rel, res = Ok rel) <->
   (List.length new = 5%nat /\ all_succeeded new = true)) /\
  (forall e, res = Err e -> is_Errorf e = true).
Proof.
  release_cases.
  all: repeat split; intros;
    repeat match goal with
      | Hyp : exists _, _ |- _ => destruct Hyp
      | Hyp : _ /\ _ |- _ => destruct Hyp
      | Hyp : Err _ = Err _ |- _ => injection Hyp as <-
      end;
    try discriminate; try reflexivity; eauto.
Qed.

(** X2. The version is incremented in the caller's application before
    any call is made and is not taken back: whatever the release
    returns, also an error, the application is left at the incremented
    version with its other fields as they were, so that a second
    attempt on the same application increments it again. *)
Theorem ReleasesCreate_advances_on_failure `{Codec} {R : Type} `{GitHub R}
    (s : Storage) (d1 d2 : string) (w w1 w2 : world)
    (res1 res2 : outcome Release) :
  ReleasesCreate s d1 w = (res1, w1) ->
  ReleasesCreate s d2 w1 = (res2, w2) ->
  the_app w1 = set_Version (to_int (Version (the_app w) + 1)) (the_app w) /\
  the_app w2
  = set_Version (to_int (to_int (Version (the_app w) + 1) + 1)) (the_app w).
Proof.
  assert (Hone : forall d v v' r,
            ReleasesCreate s d v = (r, v') ->
            the_app v' = set_Version (to_int (Version (the_app v) + 1)) (the_app v)).
  { intros d v v' r. release_cases. all: reflexivity. }
  intros H1 H2. apply Hone in H1. apply Hone in H2.
  split; [exact H1|]. rewrite H2, H1. reflexivity.
Qed.

(** X3. A successful release has made exactly these calls: the look-up
    of the storage's ref, the fetch of the commit it points to, the
    creation of a tree on that commit's tree with the entries of the
    incremented application, the creation of a commit with the given
    description, that tree and the fetched commit as only parent, and
    the merge of the new commit's SHA into the ref. *)
Theorem ReleasesCreate_success_calls `{Codec} {R : Type} `{GitHub R}
    (s : Storage) (description : string) (w w' : world) (rel : Release) :
  ReleasesCreate s description w = (Ok rel, w') ->
  exists ref lastCommit entries tree commit r1 r2,
    Git_GetRef (remote w) (Owner s) (Repo s) (Ref s) = inr ref /\
    Git_GetCommit (remote w) (Owner s) (Repo s) (Object_SHA ref)
    = inr lastCommit /\
    treeEntries s (incremented (the_app w)) = inr entries /\
    Git_CreateTree (remote w) (Owner s) (Repo s)
      (Tree_SHA (Commit_Tree lastCommit)) entries = (inr tree, r1) /\
    Git_CreateCommit r1 (Owner s) (Repo s) description tree [lastCommit]
    = (inr commit, r2) /\
    Repositories_Merge r2 (Owner s) (Repo s) (Ref s) (Commit_SHA commit)
    = (inr tt, remote w') /\
    new_calls (calls w) (calls w') =
      [ (CallGetRef (Ref s), true);
        (CallGetCommit (Object_SHA ref), true);
        (CallCreateTree (Tree_SHA (Commit_Tree lastCommit)) entries, true);
        (CallCreateCommit description tree [lastCommit], true);
        (CallMerge (Ref s) (Commit_SHA commit), true) ].
Proof.
  unfold incremented. run_release.
  destruct (Git_GetRef (remote w) (Owner s) (Repo s) (Ref s))
    as [e|ref] eqn:Href; cbn [the_app remote calls]; [discriminate|].
  destruct (Git_GetCommit (remote w) (Owner s) (Repo s) (Object_SHA ref))
    as [e|lastCommit] eqn:Hlast; cbn [the_app remote calls]; [discriminate|].
  destruct (treeEntries s _) as [e|entries] eqn:Henc;
    cbn [the_app remote calls]; [discriminate|].
  destruct (Git_CreateTree (remote w) (Owner s) (Repo s) _ entries)
    as [[e|tree] r1] eqn:Htree; cbn [the_app remote calls]; [discriminate|].
  destruct (Git_CreateCommit r1 (Owner s) (Repo s) description tree _)
    as [[e|commit] r2] eqn:Hcommit; cbn [the_app remote calls]; [discriminate|].
  destruct (Repositories_Merge r2 (Owner s) (Repo s) (Ref s) _)
    as [[e|[]] r3] eqn:Hmerge; cbn [the_app remote calls]; [discriminate|].
  intros [= <- <-]. cbn [remote calls].
  exists ref, lastCommit, entries, tree, commit, r1, r2.
  rewrite <- !app_assoc, new_calls_app. repeat split; assumption || reflexivity.
Qed.


(** ** More on the path sanitizer *)

Lemma unescape_head_escape_byte (c : ascii) (s : string) :
  unescape_head (escape_byte c ++ s) = Some (c, s).
Proof.
  destruct c as [[] [] [] [] [] [] [] []]; vm_compute; reflexivity.
Qed.

Lemma url_QueryEscape_inj (e1 : string) :
  forall e2, url_QueryEscape e1 = url_QueryEscape e2 -> e1 = e2.
Proof.
  induction e1 as [|c1 r1 IH]; intros [|c2 r2]; cbn [url_QueryEscape];
    intros Heq.
  - reflexivity.
  - symmetry in Heq. exfalso. exact (escape_byte_nonempty _ _ Heq).
  - exfalso. exact (escape_byte_nonempty _ _ Heq).
  - apply (f_equal unescape_head) in Heq.
    rewrite !unescape_head_escape_byte in Heq.
    injection Heq as -> Heq. f_equal. apply IH, Heq.
Qed.

Lemma map_url_QueryEscape_inj (l1 : list string) :
  forall l2, map url_QueryEscape l1 = map url_QueryEscape l2 -> l1 = l2.
Proof.
  induction l1 as [|e1 l1 IH]; intros [|e2 l2]; cbn [map]; intros Heq;
    try discriminate Heq; [reflexivity|].
  injection Heq as He Hl. f_equal; [apply url_QueryEscape_inj, He|apply IH, Hl].
Qed.

Lemma joined_cons (e : string) (es : list string) :
  joined (e :: es) = String "/" (url_QueryEscape e ++ joined es).
Proof. reflexivity. Qed.

(** X7. [PathJoin] is one-to-one in its components: under one base path
    two different lists of components never give the same path. *)
Theorem PathJoin_inj (basepath : string) (elem1 elem2 : list string) :
  PathJoin basepath elem1 = PathJoin basepath elem2 -> elem1 = elem2.
Proof.
  rewrite !PathJoin_joined. intros Heq. apply append_inj in Heq.
  destruct elem1 as [|e1 es1], elem2 as [|e2 es2];
    rewrite ?joined_cons in Heq; try discriminate Heq; [reflexivity|].
  injection Heq as Heq.
  apply (f_equal (fun t => split_elements t "")) in Heq.
  rewrite !split_elements_joined in Heq.
  apply (map_url_QueryEscape_inj (e1 :: es1) (e2 :: es2)), Heq.
Qed.

Lemma url_QueryEscape_eqb (e d : string) :
  d = "" \/ d = "." \/ d = ".." ->
  String.eqb (url_QueryEscape e) d = String.eqb e d.
Proof.
  intros Hd.
  assert (Hfix : url_QueryEscape d = d)
    by (destruct Hd as [->|[->| ->]]; reflexivity).
  destruct (String.eqb_spec e d) as [->|Hne].
  - rewrite Hfix. apply String.eqb_refl.
  - apply String.eqb_neq. intros Heq. apply Hne.
    apply url_QueryEscape_inj. rewrite Hfix. exact Heq.
Qed.

Lemma stays_under_escaped (elem : list string) :
  forall depth,
    stays_under (map url_QueryEscape elem) depth = stays_under elem depth.
Proof.
  induction elem as [|e es IH]; intros depth; cbn [map stays_under];
    [reflexivity|].
  rewrite !url_QueryEscape_eqb by tauto.
  destruct (String.eqb e "" || String.eqb e "."); [apply IH|].
  destruct (String.eqb e ".."); [destruct depth|]; auto.
Qed.

Lemma lexically_under_joined (basepath : string) (elem : list string) :
  lexically_under basepath (PathJoin basepath elem) = stays_under elem 0.
Proof.
  rewrite PathJoin_joined. unfold lexically_under.
  rewrite strip_prefix_append.
  destruct elem as [|e es]; [reflexivity|].
  rewrite joined_cons. change (Ascii.eqb "/" "/") with true. cbn [andb].
  rewrite split_elements_joined.
  change ("" ++ url_QueryEscape e) with (url_QueryEscape e).
  apply (stays_under_escaped (e :: es)).
Qed.

(** X6. The joined path is lexically under the base path exactly when
    the components, each taken as one path element, never go up above
    it: a separator inside a component is escaped and cannot leave the
    base, while a component that is [..] itself still goes up. *)
Theorem PathJoin_lexically_under (basepath : string) (elem : list string) :
  lexically_under basepath (PathJoin basepath elem) = stays_under elem 0.
Proof. apply lexically_under_joined. Qed.

(** X8. The decoder on the storage's own fetcher asks the remote for
    the base path followed by one element, the escape of
    [name/file] with its separator percent-encoded; this is never the
    path [BasePath/name/file] under which the encoder writes the
    file. *)
Theorem GetContentsAtRef_request_path {R : Type} `{GitHub R} (r : R)
    (s : Storage) (ref name file : string) :
  let asked :=
    BasePath s ++ "/" ++ url_QueryEscape (name ++ "/" ++ url_QueryEscape file) in
  GetContentsAtRef r s ref [PathJoin name [file]]
  = Repositories_GetContents r (Owner s) (Repo s) asked ref /\
  has_byte "/" (url_QueryEscape (name ++ "/" ++ url_QueryEscape file)) = false /\
  asked <> Storage_Path s [name; file].
Proof.
  intros asked. subst asked. split; [|split].
  - unfold GetContentsAtRef, Storage_Path. rewrite !PathJoin_joined.
    cbn [joined fold_right DirectorySeparator]. rewrite !append_nil_r.
    reflexivity.
  - apply url_QueryEscape_no_separator.
  - unfold Storage_Path. rewrite PathJoin_joined.
    cbn [joined fold_right DirectorySeparator]. rewrite append_nil_r.
    intros Heq. apply append_inj in Heq.
    cbn [String.append] in Heq. injection Heq as Heq.
    apply (f_equal (has_byte "/")) in Heq.
    rewrite url_QueryEscape_no_separator, has_byte_append in Heq.
    rewrite url_QueryEscape_no_separator in Heq. cbn in Heq. discriminate Heq.
Qed.


(** ** More on the encoder *)

Lemma stays_under_app_file (name file : string) :
  In file [FileVersion; FileEnv; FileImage; FileServices] ->
  stays_under [name; file] 0 = negb (String.eqb name "..").
Proof.
  intros Hin. cbn [stays_under].
  assert (Hfile : String.eqb file "" || String.eqb file "." = false /\
                  String.eqb file ".." = false)
    by (cbn [In] in Hin; destruct Hin as [<-|[<-|[<-|[<-|[]]]]];
        split; reflexivity).
  destruct Hfile as [Hf1 Hf2]. rewrite Hf1, Hf2.
  destruct (String.eqb_spec name "") as [->|_]; [reflexivity|].
  destruct (String.eqb_spec name ".") as [->|_]; [reflexivity|].
  cbn [orb]. destruct (String.eqb name ".."); reflexivity.
Qed.

(** X4. The entries of an encoding are regular-file blobs of mode
    100644, at most four and at least one, the first being the VERSION
    file, and no two of them have the same path. *)
Theorem treeEntries_blobs `{Codec} (s : Storage) (app : App)
    (entries : list TreeEntry) :
  treeEntries s app = inr entries ->
  Forall (fun e => Type_ e = "blob" /\ Mode e = "100644") entries /\
  List.NoDup (map Path entries) /\
  (1 <= List.length entries <= 4)%nat /\
  option_map Path (head entries) = Some (Storage_Path s [Name app; FileVersion]).
Proof.
  intros Henc.
  apply treeEntries_inr in Henc as (envPart & fmPart & Henv & Hfm & ->).
  unfold env_entries in Henv. unfold formation_entries in Hfm.
  unfold image_entries.
  destruct (Environment app), (Image app), (Formation app);
    members; cbn [Datatypes.app map Path blob List.length head option_map].
  all: split; [repeat constructor|].
  all: split; [|split; [lia|reflexivity]].
  all: repeat (constructor;
               [cbn [In]; intros Hin; members; clash|]); constructor.
Qed.

(** X5. The paths of an encoding are all lexically under the storage's
    base path, unless the application is named [..]: then none of them
    is. *)
Theorem treeEntries_paths_under_BasePath `{Codec} (s : Storage) (app : App)
    (entries : list TreeEntry) :
  treeEntries s app = inr entries ->
  Forall (fun e => lexically_under (BasePath s) (Path e)
                   = negb (String.eqb (Name app) "..")) entries.
Proof.
  intros Henc.
  apply treeEntries_inr in Henc as (envPart & fmPart & Henv & Hfm & ->).
  unfold env_entries in Henv. unfold formation_entries in Hfm.
  unfold image_entries.
  destruct (Environment app), (Image app), (Formation app);
    members; cbn [Datatypes.app].
  all: repeat (constructor;
               [cbn [Path blob]; unfold Storage_Path;
                rewrite lexically_under_joined;
                apply stays_under_app_file; cbn [In]; tauto|]);
    constructor.
Qed.


(** ** More on the decoder *)

Section Decoder.
Context `{codec : Codec}.

(** What a successful decoding has read. *)
Lemma loadApp_Ok_inv (f : contentFetcher) (app app' st : App) :
  loadApp f app = (Ok app', st) ->
  exists rawV sfx rawS rawI img rawE,
    fileContent f (PathJoin (Name app) [FileVersion]) = Ok rawV /\
    slice_from_1 (strings_TrimSpace rawV) = Some sfx /\
    strconv_Atoi sfx = inr (Version app') /\
    fileContent f (PathJoin (Name app) [FileServices]) = Ok rawS /\
    json_Unmarshal rawS (Formation app) = (None, Formation app') /\
    fileContent f (PathJoin (Name app) [FileImage]) = Ok rawI /\
    image_Decode rawI = inr img /\ Image app' = Some img /\
    fileContent f (PathJoin (Name app) [FileEnv]) = Ok rawE /\
    dotenv_Read rawE = inr (Environment app') /\
    Name app' = Name app /\ st = app'.
Proof.
  run_loadApp.
  destruct (fileContent f (PathJoin (Name app) [FileVersion]))
    as [rawV|e|m] eqn:HcV; [|discriminate..].
  destruct (slice_from_1 (strings_TrimSpace rawV)) as [sfx|] eqn:Hs;
    [|discriminate].
  run_loadApp. destruct (strconv_Atoi sfx) as [e|vi] eqn:Ha; [discriminate|].
  run_loadApp.
  destruct (fileContent f (PathJoin (Name app) [FileServices]))
    as [rawS|e|m] eqn:HcS; [|discriminate..].
  destruct (json_Unmarshal rawS (Formation app)) as [[e|] fm'] eqn:HU;
    [discriminate|].
  run_loadApp.
  destruct (fileContent f (PathJoin (Name app) [FileImage]))
    as [rawI|e|m] eqn:HcI; [|discriminate..].
  destruct (image_Decode rawI) as [e|img] eqn:HD; [discriminate|].
  run_loadApp.
  destruct (fileContent f (PathJoin (Name app) [FileEnv]))
    as [rawE|e|m] eqn:HcE; [|discriminate..].
  destruct (dotenv_Read rawE) as [e|env] eqn:HR; [discriminate|].
  intros [= <- <-].
  exists rawV, sfx, rawS, rawI, img, rawE.
  cbn [Name Version Environment Image Formation set_Environment].
  repeat split; assumption || reflexivity.
Qed.

Lemma contains_refl (s : string) : contains s s = true.
Proof.
  assert (Hp : String.prefix s s = true).
  { induction s as [|c s IH]; cbn [String.prefix]; [reflexivity|].
    destruct (ascii_dec c c); [exact IH|congruence]. }
  destruct s; cbn [contains]; rewrite Hp; reflexivity.
Qed.

Lemma fileContent_Err (f : contentFetcher) (path : string) (e : error) :
  fileContent f path = Err e ->
  exists cause,
    (e = fmt_Errorf "get contents of %q: %v" [path] cause /\
     f [path] = ContentsErr cause) \/
    (e = fmt_Errorf "decoding %q: %v" [path] cause /\
     exists c, f [path] = ContentsFile c /\ Decode c = inl cause).
Proof.
  unfold fileContent.
  destruct (f [path]) as [cause|c|l] eqn:Hf; [| |discriminate].
  - intros [= <-]. exists cause. left. auto.
  - destruct (Decode c) as [cause|raw] eqn:Hd; [|discriminate].
    intros [= <-]. exists cause. right. eauto.
Qed.

Lemma fileContent_Err_mentions (f : contentFetcher) (path : string) (e : error) :
  fileContent f path = Err e -> error_mentions path e = true.
Proof.
  intros He. apply fileContent_Err in He as (cause & [[-> _]|[-> _]]);
    cbn [error_mentions existsb]; rewrite contains_refl;
    rewrite ?orb_true_r; reflexivity.
Qed.
End Decoder.

(** X10. A successful decoding returns the application it was given,
    under the same name and with an image that is not nil, and has read
    all four files: the version is the number after the first byte of
    the trimmed VERSION content, the formation, the image and the
    environment are what the three codecs read from [services.json],
    [image.txt] and [app.env]. *)
Theorem loadApp_success `{Codec} (f : contentFetcher) (app app' st : App) :
  loadApp f app = (Ok app', st) ->
  st = app' /\ Name app' = Name app /\ Image app' <> None /\
  exists rawV sfx rawS rawI img rawE,
    fileContent f (PathJoin (Name app) [FileVersion]) = Ok rawV /\
    slice_from_1 (strings_TrimSpace rawV) = Some sfx /\
    strconv_Atoi sfx = inr (Version app') /\
    fileContent f (PathJoin (Name app) [FileServices]) = Ok rawS /\
    json_Unmarshal rawS (Formation app) = (None, Formation app') /\
    fileContent f (PathJoin (Name app) [FileImage]) = Ok rawI /\
    image_Decode rawI = inr img /\ Image app' = Some img /\
    fileContent f (PathJoin (Name app) [FileEnv]) = Ok rawE /\
    dotenv_Read rawE = inr (Environment app').
Proof.
  intros Hrun.
  apply loadApp_Ok_inv in Hrun
    as (rawV & sfx & rawS & rawI & img & rawE & H1 & H2 & H3 & H4 & H5 & H6 &
        H7 & H8 & H9 & H10 & H11 & H12).
  split; [exact H12|]. split; [exact H11|]. split; [congruence|].
  exists rawV, sfx, rawS, rawI, img, rawE. repeat split; assumption.
Qed.

(** An error of reading a file is built by [fmt.Errorf] around the
    fetcher's or the content decoder's error and carries the path of
    the file; a directory answered for the path makes the read panic. *)
Theorem fileContent_errors (f : contentFetcher) (path : string) :
  (forall e, fileContent f path = Err e ->
             is_Errorf e = true /\ error_mentions path e = true) /\
  (forall l, f [path] = ContentsDir l ->
             exists msg, fileContent f path = Panic msg) /\
  (forall raw, fileContent f path = Ok raw ->
               exists c, f [path] = ContentsFile c /\ Decode c = inr raw).
Proof.
  split; [|split].
  - intros e He. split; [|exact (fileContent_Err_mentions f path e He)].
    apply fileContent_Err in He as (cause & [[-> _]|[-> _]]); reflexivity.
  - intros l Hl. unfold fileContent. rewrite Hl. eauto.
  - intros raw. unfold fileContent.
    destruct (f [path]) as [cause|c|l]; [discriminate| |discriminate].
    destruct (Decode c) as [cause|raw'] eqn:Hd; [discriminate|].
    intros [= <-]. eauto.
Qed.

(** X11. Every error of the decoder is either an error of reading one
    of the four files, which carries the path of that file, or the
    error that [Atoi], the JSON decoder, the image decoder or the
    environment reader gave, passed on as it is. *)
Theorem loadApp_error_kinds `{Codec} (f : contentFetcher) (app st : App)
    (e : error) :
  loadApp f app = (Err e, st) ->
  (exists file,
     In file [FileVersion; FileServices; FileImage; FileEnv] /\
     fileContent f (PathJoin (Name app) [file]) = Err e /\
     error_mentions (PathJoin (Name app) [file]) e = true) \/
  (exists sfx, strconv_Atoi sfx = inl e) \/
  (exists raw cur, fst (json_Unmarshal raw cur) = Some e) \/
  (exists raw, image_Decode raw = inl e) \/
  (exists raw, dotenv_Read raw = inl e).
Proof.
  assert (Hread : forall file,
            In file [FileVersion; FileServices; FileImage; FileEnv] ->
            fileContent f (PathJoin (Name app) [file]) = Err e ->
            exists file,
              In file [FileVersion; FileServices; FileImage; FileEnv] /\
              fileContent f (PathJoin (Name app) [file]) = Err e /\
              error_mentions (PathJoin (Name app) [file]) e = true).
  { intros file Hin He. exists file. repeat split; try assumption.
    exact (fileContent_Err_mentions _ _ _ He). }
  run_loadApp.
  destruct (fileContent f (PathJoin (Name app) [FileVersion]))
    as [rawV|eV|m] eqn:HcV;
    [|intros [= <- _]; left; apply (Hread FileVersion); cbn; tauto
     |discriminate].
  destruct (slice_from_1 (strings_TrimSpace rawV)) as [sfx|]; [|discriminate].
  run_loadApp. destruct (strconv_Atoi sfx) as [eA|vi] eqn:Ha;
    [intros [= <- _]; right; left; eauto|].
  run_loadApp.
  destruct (fileContent f (PathJoin (Name app) [FileServices]))
    as [rawS|eS|m] eqn:HcS;
    [|intros [= <- _]; left; apply (Hread FileServices); cbn; tauto
     |discriminate].
  destruct (json_Unmarshal rawS (Formation app)) as [[eU|] fm'] eqn:HU;
    [intros [= <- _]; do 2 right; left; exists rawS, (Formation app);
     rewrite HU; reflexivity|].
  run_loadApp.
  destruct (fileContent f (PathJoin (Name app) [FileImage]))
    as [rawI|eI|m] eqn:HcI;
    [|intros [= <- _]; left; apply (Hread FileImage); cbn; tauto
     |discriminate].
  destruct (image_Decode rawI) as [eD|img] eqn:HD;
    [intros [= <- _]; do 3 right; left; eauto|].
  run_loadApp.
  destruct (fileContent f (PathJoin (Name app) [FileEnv]))
    as [rawE|eE|m] eqn:HcE;
    [|intros [= <- _]; left; apply (Hread FileEnv); cbn; tauto
     |discriminate].
  destruct (dotenv_Read rawE) as [eR|env] eqn:HR;
    [intros [= <- _]; do 4 right; eauto|discriminate].
Qed.


(** ** Decoding an encoding with a field left out *)

Section Asymmetry.
Context `{codec : Codec}.

Lemma entry_at_treeEntries (s : Storage) (app : App) (entries : list TreeEntry) :
  treeEntries s app = inr entries ->
  entry_at entries (Storage_Path s [Name app; FileVersion])
  = Some (blob (Storage_Path s [Name app; FileVersion])
               (Sprintf_v_d (Version app))) /\
  (Formation app = None ->
   entry_at entries (Storage_Path s [Name app; FileServices]) = None) /\
  (Image app = None ->
   entry_at entries (Storage_Path s [Name app; FileImage]) = None) /\
  (Environment app = None ->
   entry_at entries (Storage_Path s [Name app; FileEnv]) = None).
Proof.
  intros Henc.
  apply treeEntries_inr in Henc as (envPart & fmPart & Henv & Hfm & ->).
  unfold env_entries in Henv. unfold formation_entries in Hfm.
  unfold image_entries, entry_at.
  destruct (Environment app), (Image app), (Formation app); members;
    cbn [Datatypes.app List.find Path blob];
    rewrite ?Storage_Path_eqb;
    repeat match goal with
      | |- context [String.eqb (url_QueryEscape ?a) (url_QueryEscape ?b)] =>
          let v := eval vm_compute in
                     (String.eqb (url_QueryEscape a) (url_QueryEscape b)) in
          change (String.eqb (url_QueryEscape a) (url_QueryEscape b)) with v
      end;
    cbv iota;
    repeat split; intros; try discriminate; reflexivity.
Qed.

Lemma serves_fileContent (f : contentFetcher) (s : Storage) (name file : string)
    (entries : list TreeEntry) :
  serves f s name entries ->
  In file [FileVersion; FileServices; FileImage; FileEnv] ->
  match entry_at entries (Storage_Path s [name; file]) with
  | Some e => fileContent f (PathJoin name [file]) = Ok (Content e)
  | None => exists err, fileContent f (PathJoin name [file]) = Err err
  end.
Proof.
  intros Hserves Hin. specialize (Hserves file Hin).
  destruct (entry_at entries (Storage_Path s [name; file])) as [e|].
  - destruct Hserves as (c & Hf & Hd). exact (fileContent_file _ _ _ _ Hf Hd).
  - destruct Hserves as (err & Hf). rewrite (fileContent_missing _ _ _ Hf). eauto.
Qed.
End Asymmetry.

(** X9. The encoder leaves out the file of a nil field and the decoder
    requires all four files: an application whose environment, image or
    formation is nil does not decode from a fetcher serving its own
    encoding; the decoder returns an error, and when the formation is
    nil the error is that of fetching [services.json]. *)
Theorem loadApp_treeEntries_nil_field `{Codec} (s : Storage) (A : App)
    (f : contentFetcher) (entries : list TreeEntry) :
  is_int (Version A) ->
  treeEntries s A = inr entries ->
  serves f s (Name A) entries ->
  Environment A = None \/ Image A = None \/ Formation A = None ->
  (exists e, fst (loadApp f (named (Name A))) = Err e) /\
  (Formation A = None ->
   exists err,
     f [PathJoin (Name A) [FileServices]] = ContentsErr err /\
     loadApp f (named (Name A))
     = (Err (fmt_Errorf "get contents of %q: %v"
               [PathJoin (Name A) [FileServices]] err),
        set_Version (Version A) (named (Name A)))).
Proof.
  intros Hint Henc Hserves Hnil.
  destruct (entry_at_treeEntries s A entries Henc) as (HV & HS & HI & HE).
  pose proof (serves_fileContent f s (Name A) FileVersion entries Hserves
                ltac:(cbn; tauto)) as HcV.
  rewrite HV in HcV. cbn [Content blob] in HcV.
  pose proof (serves_fileContent f s (Name A) FileServices entries Hserves
                ltac:(cbn; tauto)) as HcS.
  pose proof (serves_fileContent f s (Name A) FileImage entries Hserves
                ltac:(cbn; tauto)) as HcI.
  pose proof (serves_fileContent f s (Name A) FileEnv entries Hserves
                ltac:(cbn; tauto)) as HcE.
  destruct (version_file_roundtrip (Version A) Hint) as [Hslice Hatoi].
  split.
  - run_loadApp. rewrite HcV, Hslice. run_loadApp. rewrite Hatoi. run_loadApp.
    destruct (entry_at entries (Storage_Path s [Name A; FileServices]))
      as [eS|] eqn:HaS;
      [rewrite HcS|destruct HcS as (err & ->); cbn [fst]; eauto].
    destruct (json_Unmarshal (Content eS) None) as [[eU|] fm']; [cbn; eauto|].
    run_loadApp.
    destruct (entry_at entries (Storage_Path s [Name A; FileImage]))
      as [eI|] eqn:HaI;
      [rewrite HcI|destruct HcI as (err & ->); cbn [fst]; eauto].
    destruct (image_Decode (Content eI)) as [eD|img]; [cbn; eauto|].
    run_loadApp.
    destruct (entry_at entries (Storage_Path s [Name A; FileEnv]))
      as [eE|] eqn:HaE;
      [rewrite HcE|destruct HcE as (err & ->); cbn [fst]; eauto].
    exfalso. destruct Hnil as [Hn|[Hn|Hn]].
    + pose proof (HE Hn). congruence.
    + pose proof (HI Hn). congruence.
    + pose proof (HS Hn). congruence.
  - intros Hn. specialize (Hserves FileServices ltac:(cbn; tauto)).
    rewrite (HS Hn) in Hserves. destruct Hserves as (err & Hf).
    exists err. split; [exact Hf|].
    run_loadApp. rewrite HcV, Hslice. run_loadApp. rewrite Hatoi. run_loadApp.
    rewrite (fileContent_missing _ _ _ Hf). reflexivity.
Qed.


(** ** More on the registry and the history *)

Section Lists.
Context `{codec : Codec} {R : Type} `{github : GitHub R}.

Lemma Apps_Ok_inv (r : R) (s : Storage) (q : AppsQuery) (apps : list App) :
  Apps r s q = Ok apps ->
  exists l,
    apps = matching q (directories l) /\
    (GetContents r s [] = ContentsDir l \/
     (l = [] /\ exists c, GetContents r s [] = ContentsFile c)).
Proof.
  unfold Apps. destruct (GetContents r s []) as [e|c|l] eqn:Hget;
    [discriminate| |].
  - intros [= <-]. exists []. rewrite filterApps_spec. split; [reflexivity|].
    right. eauto.
  - intros [= <-]. exists l. rewrite directories_spec, filterApps_spec. auto.
Qed.

Lemma matching_In (q : AppsQuery) (apps : list App) (a : App) :
  In a (matching q apps) ->
  In a apps /\ (forall n, Query_Name q = Some n -> Name a = n).
Proof.
  unfold matching. destruct (Query_Name q) as [n|].
  - intros Hin. apply filter_In in Hin as [Hin Heq].
    apply String.eqb_eq in Heq. split; [exact Hin|]. congruence.
  - intros Hin. split; [exact Hin|]. discriminate.
Qed.

Lemma directories_In (l : list RepositoryContent) (a : App) :
  In a (directories l) ->
  exists f, In f l /\ Content_Type f = "dir" /\ a = named (Content_Name f).
Proof.
  unfold directories. intros Hin. apply in_map_iff in Hin as (f & <- & Hf).
  apply filter_In in Hf as [Hf Hdir]. apply String.eqb_eq in Hdir. eauto.
Qed.

Lemma Releases_loop_stops (r : R) (s : Storage) (name : string)
    (pre : list RepositoryCommit) :
  forall acc c post o,
    Forall (fun commit => exists app, decoded_at r s name commit = Ok app) pre ->
    decoded_at r s name c = o ->
    (forall app, o <> Ok app) ->
    Releases_loop r s name (pre ++ c :: post) acc
    = match o with
      | Ok _ => Ok []
      | Err e => Err e
      | Panic msg => Panic msg
      end.
Proof.
  induction pre as [|p pre IH]; intros acc c post o Hpre Hc Hfail;
    cbn [Datatypes.app Releases_loop].
  - fold (decoded_at r s name c). rewrite Hc.
    destruct o as [app|e|m]; [exfalso; exact (Hfail app eq_refl)|reflexivity..].
  - apply Forall_cons_iff in Hpre as [(app & Hp) Hrest].
    fold (decoded_at r s name p). rewrite Hp. apply IH; assumption.
Qed.
Lemma Releases_Ok_In (r : R) (s : Storage) (q : ReleasesQuery)
    (rels : list Release) (rel : Release) :
  Releases r s q = Ok rels -> In rel rels ->
  Name (Release_App rel) = Name (Query_App q) /\
  Image (Release_App rel) <> None.
Proof.
  unfold Releases.
  destruct (Repositories_ListCommits r (Owner s) (Repo s) (Ref s) _)
    as [err|commits]; [discriminate|].
  intros Hloop Hin.
  apply Releases_loop_Ok in Hloop as (new & -> & Hall).
  cbn [Datatypes.app] in Hin. clear -Hall Hin.
  induction Hall as [|c rel' cs rels' Hrel Hrest IH]; [destruct Hin|].
  destruct Hin as [->|Hin]; [|exact (IH Hin)].
  destruct Hrel as (Hdec & _). unfold decoded_at in Hdec.
  destruct (loadApp (GetContentsAtRef r s (RepositoryCommit_SHA c))
              (named (Name (Query_App q)))) as [res st] eqn:Hrun.
  cbn [fst] in Hdec. subst res.
  pose proof (loadApp_Ok_inv _ _ _ _ Hrun)
    as (rawV & sfx & rawS & rawI & img & rawE & _ & _ & _ & _ & _ & _ & _ &
        Himg & _ & _ & Hname & _).
  split; [exact Hname|congruence].
Qed.
End Lists.

(** X13. [Apps] asks for the base path at the storage's ref; the
    applications it returns carry a name and nothing else, each is the
    name of a directory of the listing, and with a name in the query
    each has that name; a file at the base path gives no
    application. *)
Theorem Apps_listing `{Codec} {R : Type} `{GitHub R} (r : R) (s : Storage)
    (q : AppsQuery) :
  GetContents r s []
  = Repositories_GetContents r (Owner s) (Repo s) (BasePath s) (Ref s) /\
  (forall c, GetContents r s [] = ContentsFile c -> Apps r s q = Ok []) /\
  (forall apps a,
     Apps r s q = Ok apps -> In a apps ->
     a = named (Name a) /\
     (forall n, Query_Name q = Some n -> Name a = n) /\
     exists l f,
       GetContents r s [] = ContentsDir l /\ In f l /\
       Content_Type f = "dir" /\ Content_Name f = Name a).
Proof.
  split; [reflexivity|]. split.
  - intros c Hc. unfold Apps. rewrite Hc. unfold filterApps, filter.
    destruct (Query_Name q); reflexivity.
  - intros apps a Happs Hin.
    apply Apps_Ok_inv in Happs as (l & -> & Hget).
    apply matching_In in Hin as [Hin Hname].
    apply directories_In in Hin as (f & Hf & Hdir & ->).
    cbn [Name named]. split; [reflexivity|]. split; [exact Hname|].
    destruct Hget as [Hget|[-> _]]; [|destruct Hf].
    exists l, f. auto.
Qed.

(** X14. [AppsFind] with a name in the query returns, when it returns
    an application, one with that name and with an image, decoded from
    the storage's ref; and when no directory of the listing has the
    name, it returns the not-found error. *)
Theorem AppsFind_by_name `{Codec} {R : Type} `{GitHub R} (r : R) (s : Storage)
    (q : AppsQuery) (n : string) :
  Query_Name q = Some n ->
  (forall app,
     AppsFind r s q = Ok app ->
     Name app = n /\ Image app <> None /\
     fst (loadApp (GetContentsAtRef r s (Ref s)) (named n)) = Ok app) /\
  (forall l,
     GetContents r s [] = ContentsDir l ->
     (forall f, In f l -> Content_Type f = "dir" -> Content_Name f <> n) ->
     AppsFind r s q = Err (NotFoundError (errors_New "app not found"))).
Proof.
  intros Hq. split.
  - intros app. unfold AppsFind.
    destruct (Apps r s q) as [[|a rest]|e|m] eqn:Happs; try discriminate.
    intros Hload.
    assert (Ha : a = named n).
    { apply Apps_Ok_inv in Happs as (l & Heq & _).
      assert (Hin : In a (matching q (directories l)))
        by (rewrite <- Heq; left; reflexivity).
      apply matching_In in Hin as [Hin Hname].
      apply directories_In in Hin as (f & _ & _ & ->).
      cbn [Name named] in Hname. rewrite (Hname n Hq). reflexivity. }
    subst a.
    destruct (loadApp (GetContents r s) (named n)) as [res st] eqn:Hrun.
    cbn [fst] in Hload. subst res.
    pose proof (loadApp_Ok_inv _ _ _ _ Hrun)
      as (rawV & sfx & rawS & rawI & img & rawE & _ & _ & _ & _ & _ & _ & _ &
          Himg & _ & _ & Hname & _).
    split; [exact Hname|]. split; [congruence|].
    unfold GetContents in Hrun. rewrite Hrun. reflexivity.
  - intros l Hl Hnone. unfold AppsFind, Apps. rewrite Hl.
    rewrite directories_spec, filterApps_spec.
    destruct (matching q (directories l)) as [|a rest] eqn:Hm; [reflexivity|].
    exfalso.
    assert (Hin : In a (matching q (directories l)))
      by (rewrite Hm; left; reflexivity).
    apply matching_In in Hin as [Hin Hname].
    apply directories_In in Hin as (f & Hf & Hdir & ->).
    apply (Hnone f Hf Hdir). exact (Hname n Hq).
Qed.

(** X15. [Releases] gives the error of the commit log as it is; it
    decodes the commits in the log's order and stops at the first that
    does not decode, with that commit's error or panic, whatever
    follows it; and each release it returns carries the application
    name of the query and an image. *)
Theorem Releases_first_failure `{Codec} {R : Type} `{GitHub R} (r : R)
    (s : Storage) (q : ReleasesQuery) :
  let log :=
    Repositories_ListCommits r (Owner s) (Repo s) (Ref s)
      (Storage_Path s [Name (Query_App q); FileVersion]) in
  let decoded := decoded_at r s (Name (Query_App q)) in
  (forall err, log = inl err -> Releases r s q = Err err) /\
  (forall pre c post,
     log = inr (pre ++ c :: post)%list ->
     Forall (fun commit => exists app, decoded commit = Ok app) pre ->
     (forall e, decoded c = Err e -> Releases r s q = Err e) /\
     (forall msg, decoded c = Panic msg -> Releases r s q = Panic msg)) /\
  (forall rels rel,
     Releases r s q = Ok rels -> In rel rels ->
     Name (Release_App rel) = Name (Query_App q) /\
     Image (Release_App rel) <> None).
Proof.
  intros log decoded. subst log decoded. split; [|split].
  - intros err Hlog. unfold Releases. rewrite Hlog. reflexivity.
  - intros pre c post Hlog Hpre. unfold Releases. rewrite Hlog. split.
    + intros e He.
      rewrite (Releases_loop_stops r s _ pre [] c post (Err e) Hpre He);
        [reflexivity|discriminate].
    + intros msg Hm.
      rewrite (Releases_loop_stops r s _ pre [] c post (Panic msg) Hpre Hm);
        [reflexivity|discriminate].
  - intros rels rel Hok Hin. exact (Releases_Ok_In r s q rels rel Hok Hin).
Qed.


(** ** Authentication and authorization *)

(** X16. [Authenticate] returns a user exactly when the authorization
    is created and its token gives a GitHub user: the user has that
    login and that token.  A two-factor or unauthorized failure of the
    authorization comes out as the sentinel of package [auth]; a
    failure of the user look-up comes out as it is, so that the
    client's own two sentinels can only come from there. *)
Theorem Authenticate_outcomes (c : Auth.client) (username password otp : string) :
  let opts :=
    {| Auth.Username := username; Auth.Password := password;
       Auth.OTP := otp |} in
  (forall user,
     Auth.Authenticate c username password otp = Auth.Return user <->
     exists a u,
       Auth.CreateAuthorization c opts = inr a /\
       Auth.GetUser c (Auth.Token a) = inr u /\
       user = {| Auth.User_Name := Auth.Login u;
                 Auth.GitHubToken := Auth.Token a |}) /\
  (Auth.CreateAuthorization c opts = inl Auth.errTwoFactor ->
   Auth.Authenticate c username password otp = Auth.Fail Auth.auth_ErrTwoFactor) /\
  (Auth.CreateAuthorization c opts = inl Auth.errUnauthorized ->
   Auth.Authenticate c username password otp = Auth.Fail Auth.auth_ErrForbidden) /\
  (forall e,
     Auth.Authenticate c username password otp = Auth.Fail e ->
     e = Auth.errTwoFactor \/ e = Auth.errUnauthorized ->
     exists a,
       Auth.CreateAuthorization c opts = inr a /\
       Auth.GetUser c (Auth.Token a) = inl e) /\
  (forall msg, Auth.Authenticate c username password otp <> Auth.Panics msg).
Proof.
  intros opts. subst opts. unfold Auth.Authenticate.
  destruct (Auth.CreateAuthorization c _) as [e|a] eqn:Hc.
  - repeat split.
    + destruct e; discriminate.
    + intros (a & u & Ha & _). discriminate Ha.
    + intros [= ->]. reflexivity.
    + intros [= ->]. reflexivity.
    + intros e' He' [-> | ->]; destruct e; discriminate He'.
    + intros msg. destruct e; discriminate.
  - destruct (Auth.GetUser c (Auth.Token a)) as [e|u] eqn:Hu.
    + repeat split; try discriminate.
      * intros (a' & u' & [= <-] & Hu' & _). congruence.
      * intros e' [= <-] _. eauto.
    + repeat split; try discriminate.
      * intros [= <-]. eauto.
      * intros (a' & u' & [= <-] & Hu' & ->).
        assert (u' = u) as -> by congruence. reflexivity.
Qed.

(** X17. The organization authorizer lets a user in exactly when an
    organization is set and the client answers that the user's token
    is a member, without an error; with no organization set it panics;
    an error of the client comes out as it is whatever the answer; a
    non-member gets the unauthorized error that names the user and the
    organization. *)
Theorem Organization_Authorize_grants (c : Auth.client) (Organization : string)
    (user : Auth.empire_User) :
  let asked :=
    Auth.IsOrganizationMember c Organization (Auth.GitHubToken user) in
  (Auth.Organization_Authorize c Organization user = Auth.Return tt <->
   Organization <> "" /\ asked = (true, None)) /\
  ((exists msg, Auth.Organization_Authorize c Organization user
                = Auth.Panics msg) <-> Organization = "") /\
  (forall member e,
     Organization <> "" -> asked = (member, Some e) ->
     Auth.Organization_Authorize c Organization user = Auth.Fail e) /\
  (Organization <> "" -> asked = (false, None) ->
   Auth.Organization_Authorize c Organization user
   = Auth.Fail (Auth.UnauthorizedError
                  (Auth.User_Name user ++ " is not a member of the " ++
                   Auth.dq ++ Organization ++ Auth.dq ++ " organization."))).
Proof.
  intros asked. subst asked. unfold Auth.Organization_Authorize.
  destruct (String.eqb_spec Organization "") as [->|Hne].
  - repeat split; try congruence; try discriminate; eauto.
    intros [Hne _]. congruence.
  - destruct (Auth.IsOrganizationMember c Organization _) as [[] [e|]];
      repeat split; try congruence; try discriminate; try tauto.
    all: try (intros (msg & Hm); discriminate Hm).
    all: try (intros [_ Heq]; discriminate Heq).
    all: try (intros member e' _ [= -> ->]; reflexivity).
    all: intros member e' _ Heq; discriminate Heq.
Qed.

(** X18. The team authorizer lets a user in exactly when a team is set
    and the client answers that the user is a member of it, without an
    error; with no team set it panics; an error of the client comes
    out as it is; a non-member gets the unauthorized error that names
    the user and the team. *)
Theorem Team_Authorize_grants (c : Auth.client) (TeamID : string)
    (user : Auth.empire_User) :
  let asked :=
    Auth.IsTeamMember c TeamID (Auth.User_Name user) (Auth.GitHubToken user) in
  (Auth.Team_Authorize c TeamID user = Auth.Return tt <->
   TeamID <> "" /\ asked = (true, None)) /\
  ((exists msg, Auth.Team_Authorize c TeamID user = Auth.Panics msg) <->
   TeamID = "") /\
  (forall member e,
     TeamID <> "" -> asked = (member, Some e) ->
     Auth.Team_Authorize c TeamID user = Auth.Fail e) /\
  (TeamID <> "" -> asked = (false, None) ->
   Auth.Team_Authorize c TeamID user
   = Auth.Fail (Auth.UnauthorizedError
                  (Auth.User_Name user ++ " is not a member of team " ++
                   TeamID ++ "."))).
Proof.
  intros asked. subst asked. unfold Auth.Team_Authorize.
  destruct (String.eqb_spec TeamID "") as [->|Hne].
  - repeat split; try congruence; try discriminate; eauto.
    intros [Hne _]. congruence.
  - destruct (Auth.IsTeamMember c TeamID _ _) as [[] [e|]];
      repeat split; try congruence; try discriminate; try tauto.
    all: try (intros (msg & Hm); discriminate Hm).
    all: try (intros [_ Heq]; discriminate Heq).
    all: try (intros member e' _ [= -> ->]; reflexivity).
    all: intros member e' _ Heq; discriminate Heq.
Qed.

(** ** Releases as the Heroku API shows them *)

Section Shown.
Context `{codec : Codec}.

Lemma newRelease_Ok (r : Release) (user : heroku_User) (h : heroku_Release) :
  newRelease r user = Ok h <->
  exists createdAt,
    CreatedAt r = Some createdAt /\
    h = {| heroku_Version := Version (Release_App r);
           heroku_Description := Description r;
           heroku_CreatedAt := createdAt;
           heroku_User_of := user;
           heroku_Slug := option_map image_String (Image (Release_App r)) |}.
Proof.
  unfold newRelease. destruct (CreatedAt r) as [t|].
  - destruct (Image (Release_App r)); cbn [option_map]; split.
    + intros [= <-]. eauto.
    + intros (t' & [= <-] & ->). reflexivity.
    + intros [= <-]. eauto.
    + intros (t' & [= <-] & ->). reflexivity.
  - split; [discriminate|]. intros (t & Ht & _). discriminate Ht.
Qed.

Lemma newReleases_Ok (rs : list (Release * heroku_User)) :
  forall hs,
    newReleases rs = Ok hs <->
    Forall2 (fun ru h => newRelease (fst ru) (snd ru) = Ok h) rs hs.
Proof.
  induction rs as [|[r user] rs IH]; intros hs; cbn [newReleases].
  - split.
    + intros [= <-]. constructor.
    + intros Hall. inversion Hall. reflexivity.
  - split.
    + destruct (newRelease r user) as [h|e|m] eqn:Hh; [|discriminate..].
      destruct (newReleases rs) as [hs'|e|m] eqn:Hrest; [|discriminate..].
      intros [= <-]. constructor; [exact Hh|]. apply IH. reflexivity.
    + intros Hall. inversion Hall as [|ru h rs' hs' Hh Hrest]; subst.
      cbn [fst snd] in Hh. rewrite Hh.
      apply IH in Hrest. rewrite Hrest. reflexivity.
Qed.
End Shown.

(** X19. [newRelease] panics exactly when the release has no creation
    time; otherwise it shows the application's version, the
    description, the creation time and the user, and a slug, the image
    as a string, exactly when the application has an image.  The
    release that a successful [ReleasesCreate] returns has no creation
    time: showing it panics. *)
Theorem newRelease_CreatedAt `{Codec} (r : Release) (user : heroku_User) :
  ((exists msg, newRelease r user = Panic msg) <-> CreatedAt r = None) /\
  (forall createdAt,
     CreatedAt r = Some createdAt ->
     newRelease r user
     = Ok {| heroku_Version := Version (Release_App r);
             heroku_Description := Description r;
             heroku_CreatedAt := createdAt;
             heroku_User_of := user;
             heroku_Slug := option_map image_String (Image (Release_App r)) |}) /\
  (forall (R : Type) (github : GitHub R) (s : Storage) (description : string)
          (w w' : world),
     ReleasesCreate s description w = (Ok r, w') ->
     exists msg, newRelease r user = Panic msg).
Proof.
  split; [|split].
  - unfold newRelease. destruct (CreatedAt r) as [t|].
    + split; [|discriminate]. destruct (Image (Release_App r));
        intros (msg & Hm); discriminate Hm.
    + split; eauto.
  - intros t Ht. apply newRelease_Ok. eauto.
  - intros R github s description w w' Hrun.
    apply ReleasesCreate_Ok in Hrun as [_ ->].
    unfold newRelease. cbn [CreatedAt]. eauto.
Qed.

(** X20. [newReleases] shows the releases one by one in their order and
    panics if one of them has no creation time.  The releases that
    [Releases] reads from the history are all shown with a slug, and
    they can be shown exactly when every one of them has a creation
    time. *)
Theorem newReleases_of_history `{Codec} (rs : list (Release * heroku_User)) :
  (forall hs,
     newReleases rs = Ok hs <->
     Forall2 (fun ru h => newRelease (fst ru) (snd ru) = Ok h) rs hs) /\
  ((exists hs, newReleases rs = Ok hs) <->
   Forall (fun ru => CreatedAt (fst ru) <> None) rs) /\
  (forall e, newReleases rs <> Err e) /\
  (forall (R : Type) (github : GitHub R) (r : R) (s : Storage)
          (q : ReleasesQuery) rels user hs,
     Releases r s q = Ok rels ->
     rs = map (fun rel => (rel, user)) rels ->
     newReleases rs = Ok hs ->
     List.length hs = List.length rels /\
     Forall (fun h => heroku_Slug h <> None) hs).
Proof.
  split; [exact (newReleases_Ok rs)|]. split; [|split].
  - induction rs as [|[r user] rs IH]; cbn [newReleases].
    + split; [constructor|eauto].
    + split.
      * intros (hs & Hhs).
        destruct (newRelease r user) as [h|e|m] eqn:Hh; [|discriminate..].
        destruct (newReleases rs) as [hs'|e|m] eqn:Hrest; [|discriminate..].
        constructor; [|apply IH; eauto].
        apply newRelease_Ok in Hh as (t & Ht & _). cbn [fst]. congruence.
      * intros Hall. apply Forall_cons_iff in Hall as [Hr Hrest].
        cbn [fst] in Hr. destruct (CreatedAt r) as [t|] eqn:Ht; [|congruence].
        assert (Hh : exists h, newRelease r user = Ok h)
          by (eexists; apply newRelease_Ok; eauto).
        destruct Hh as (h & ->).
        apply IH in Hrest as (hs & ->). eauto.
  - induction rs as [|[r user] rs IH]; cbn [newReleases]; intros e;
      [discriminate|].
    unfold newRelease at 1.
    destruct (CreatedAt r); [|discriminate].
    destruct (Image (Release_App r));
      (destruct (newReleases rs) as [hs'|e'|m] eqn:Hrest;
       [discriminate|exfalso; exact (IH e' eq_refl)|discriminate]).
  - intros R github r s q rels user hs Hok -> Hshown.
    apply newReleases_Ok in Hshown.
    assert (Himg : forall rel, In rel rels -> Image (Release_App rel) <> None)
      by (intros rel Hin; exact (proj2 (Releases_Ok_In r s q rels rel Hok Hin))).
    clear Hok. revert hs Hshown.
    induction rels as [|rel rels IH]; intros hs Hshown; cbn [map] in Hshown.
    + inversion Hshown. split; [reflexivity|constructor].
    + inversion Hshown as [|ru h rs' hs' Hh Hrest]; subst.
      destruct (IH (fun rel' Hin => Himg rel' (or_intror Hin)) hs' Hrest)
        as [Hlen Hslugs].
      split; [cbn [List.length]; congruence|].
      constructor; [|exact Hslugs].
      cbn [fst snd] in Hh. apply newRelease_Ok in Hh as (t & _ & ->).
      cbn [heroku_Slug]. specialize (Himg rel (or_introl eq_refl)).
      destruct (Image (Release_App rel)); [discriminate|congruence].
Qed.


(** ** White space around the version *)

Lemma list_ascii_of_string_append (a b : string) :
  list_ascii_of_string (a ++ b)
  = (list_ascii_of_string a ++ list_ascii_of_string b)%list.
Proof.
  induction a as [|c a IH]; cbn [String.append list_ascii_of_string Datatypes.app];
    congruence.
Qed.

Lemma trimLeft_blank (ws l : list ascii) :
  forallb asciiSpace ws = true -> trimLeft (ws ++ l) = trimLeft l.
Proof.
  induction ws as [|c ws IH]; cbn [forallb Datatypes.app]; intros Hws;
    [reflexivity|].
  apply andb_prop in Hws as [Hc Hws].
  cbn [trimLeft]. rewrite Hc. exact (IH Hws).
Qed.

Lemma trimRight_rev_blank (ws l : list ascii) :
  forallb asciiSpace ws = true -> trimRight_rev (ws ++ l) = trimRight_rev l.
Proof.
  induction ws as [|c ws IH]; cbn [forallb Datatypes.app]; intros Hws;
    [reflexivity|].
  apply andb_prop in Hws as [Hc Hws].
  cbn [trimRight_rev]. rewrite Hc. exact (IH Hws).
Qed.

Lemma forallb_rev {A} (p : A -> bool) (l : list A) :
  forallb p (rev l) = forallb p l.
Proof.
  induction l as [|a l IH]; cbn [rev forallb]; [reflexivity|].
  rewrite forallb_app, IH. cbn [forallb]. rewrite andb_true_r. apply andb_comm.
Qed.

(** White space around a text of solid bytes is trimmed away, and
    nothing else. *)
Lemma strings_TrimSpace_around (ws1 body ws2 : string) :
  blank ws1 = true -> blank ws2 = true ->
  forallb solid (list_ascii_of_string body) = true ->
  strings_TrimSpace (ws1 ++ body ++ ws2) = body.
Proof.
  unfold blank. intros H1 H2 Hbody.
  rewrite <- (strings_TrimSpace_solid body Hbody) at 2.
  unfold strings_TrimSpace. f_equal. f_equal.
  rewrite !list_ascii_of_string_append.
  set (b := list_ascii_of_string body) in *.
  rewrite trimLeft_blank by exact H1.
  assert (Hb : trimLeft b = b).
  { destruct b as [|c r]; [reflexivity|]. apply trimLeft_solid.
    cbn in Hbody. apply andb_prop in Hbody. tauto. }
  destruct b as [|c r].
  - cbn [Datatypes.app].
    assert (Hall : trimLeft (list_ascii_of_string ws2) = []).
    { clear -H2. induction (list_ascii_of_string ws2) as [|x l IH];
        [reflexivity|].
      cbn [forallb] in H2. apply andb_prop in H2 as [Hx Hl].
      cbn [trimLeft]. rewrite Hx. exact (IH Hl). }
    rewrite Hall. reflexivity.
  - assert (Hl : trimLeft ((c :: r) ++ list_ascii_of_string ws2)
                 = ((c :: r) ++ list_ascii_of_string ws2)%list).
    { cbn [Datatypes.app]. apply trimLeft_solid.
      cbn in Hbody. apply andb_prop in Hbody. tauto. }
    rewrite Hl, Hb, rev_app_distr.
    rewrite trimRight_rev_blank by (rewrite forallb_rev; exact H2).
    reflexivity.
Qed.

(** X12. White space around the content of the VERSION file, such as a
    final line end, does not change the version that is decoded, and
    the first byte is dropped whatever it is: with content made of
    white space, one byte that is not white space, the decimal text of
    an [int] and white space again, a successful decoding has that
    [int] as version. *)
Theorem loadApp_version_trimmed `{Codec} (f : contentFetcher) (app app' st : App)
    (ws1 ws2 : string) (c : ascii) (v : Z) :
  is_int v -> blank ws1 = true -> blank ws2 = true -> solid c = true ->
  fileContent f (PathJoin (Name app) [FileVersion])
  = Ok (ws1 ++ String c (fmtInteger v) ++ ws2) ->
  version_suffix f (Name app) (fmtInteger v) /\
  (loadApp f app = (Ok app', st) -> Version app' = v).
Proof.
  intros Hv H1 H2 Hc Hfile.
  assert (Hsolid : forallb solid (list_ascii_of_string (String c (fmtInteger v)))
                   = true).
  { pose proof (Sprintf_v_d_solid v Hv) as Hs.
    unfold Sprintf_v_d in Hs.
    cbn [String.append list_ascii_of_string forallb] in Hs |- *.
    apply andb_prop in Hs as [_ Hs]. rewrite Hc, Hs. reflexivity. }
  assert (Hsfx : version_suffix f (Name app) (fmtInteger v)).
  { eexists. split; [exact Hfile|].
    rewrite strings_TrimSpace_around by assumption. reflexivity. }
  split; [exact Hsfx|].
  intros Hrun.
  apply loadApp_Ok_inv in Hrun
    as (rawV & sfx & _ & _ & _ & _ & HcV & Hs & Ha & _).
  destruct Hsfx as (raw & Hraw & Hslice).
  assert (rawV = raw) as -> by congruence.
  assert (sfx = fmtInteger v) as -> by congruence.
  rewrite strconv_Atoi_fmtInteger in Ha by exact Hv. congruence.
Qed.


(** ** The properties at the scenarios *)

Example Releases_newest_first :
  match Scenario.web_releases with
  | Ok rels =>
      map Description rels = ["second"; "first"] /\
      map (fun rel => Version (Release_App rel)) rels = [2; 1] /\
      map CreatedAt rels = [Some 200; Some 100]
  | _ => False
  end.
Proof. vm_compute. repeat split; reflexivity. Qed.

Example AppsFind_no_match :
  Scenario.find_app {| Query_Name := Some "worker" |}
  = Err (NotFoundError (errors_New "app not found")).
Proof. reflexivity. Qed.

Example Apps_by_name :
  Scenario.list_apps {| Query_Name := Some "web" |} = Ok [named "web"].
Proof. reflexivity. Qed.

#[local] Existing Instance SpecCodec.codec.
#[local] Existing Instance Fake.github.

(** The encoding of [web] at version 1 has no image file. *)
Lemma treeEntries_files_witness :
  treeEntries Scenario.storage (set_Version 1 Scenario.web)
  = inr Scenario.web_entries /\
  ((exists e, In e Scenario.web_entries /\
              Path e = Storage_Path Scenario.storage ["web"; FileImage]) <->
   Image (set_Version 1 Scenario.web) <> None).
Proof.
  assert (Henc : treeEntries Scenario.storage (set_Version 1 Scenario.web)
                 = inr Scenario.web_entries) by (vm_compute; reflexivity).
  split; [exact Henc|].
  destruct (proj1 treeEntries_files _ _ _ _ Henc) as (_ & _ & _ & Himg & _).
  exact Himg.
Defined.

(** The application [api] decodes from its own encoding. *)
Lemma loadApp_treeEntries_roundtrip_witness :
  let f := fetcher_of Scenario.storage "api" Scenario.api_entries in
  treeEntries Scenario.storage Scenario.api = inr Scenario.api_entries /\
  serves f Scenario.storage "api" Scenario.api_entries /\
  exists A',
    loadApp f (named "api") = (Ok A', A') /\
    Version A' = 7 /\ Environment A' = Environment Scenario.api /\
    Image A' = Image Scenario.api /\ Formation A' = Formation Scenario.api.
Proof.
  intros f.
  assert (Henc : treeEntries Scenario.storage Scenario.api
                 = inr Scenario.api_entries) by (vm_compute; reflexivity).
  assert (Hserves : serves f Scenario.storage "api" Scenario.api_entries).
  { intros file Hin. cbn [In] in Hin.
    destruct Hin as [<-|[<-|[<-|[<-|[]]]]]; vm_compute;
      eexists; split; reflexivity. }
  split; [exact Henc|]. split; [exact Hserves|].
  apply (@loadApp_treeEntries_roundtrip SpecCodec.codec Scenario.storage
           Scenario.api f Scenario.api_entries
           {[ "FOO" := "bar" ]} "remind101/api:latest" tt
           ("FOO=bar" ++ chr "010") "{}");
    try exact Henc; try exact Hserves;
    try (vm_compute; reflexivity).
  unfold is_int, minInt, maxInt. cbn [Version Scenario.api]. lia.
Defined.

(** The release of [web] on the fresh repository. *)
Lemma ReleasesCreate_increments_witness :
  let run := Scenario.release Scenario.web "release" in
  all_succeeded (new_calls (calls (Scenario.start Scenario.web))
                           (calls (snd run))) = true /\
  treeEntries Scenario.storage (incremented Scenario.web)
  = inr Scenario.web_entries /\
  fst run = Ok (mkRelease (incremented Scenario.web) "release" None).
Proof.
  intros run.
  assert (Hall : all_succeeded (new_calls (calls (Scenario.start Scenario.web))
                                          (calls (snd run))) = true)
    by (vm_compute; reflexivity).
  assert (Henc : treeEntries Scenario.storage (incremented Scenario.web)
                 = inr Scenario.web_entries) by (vm_compute; reflexivity).
  split; [exact Hall|]. split; [exact Henc|].
  exact (proj1 (proj1 (@ReleasesCreate_increments SpecCodec.codec Fake.repo
                         Fake.github Scenario.storage)
                  "release" (Scenario.start Scenario.web) (fst run) (snd run)
                  Scenario.web_entries (surjective_pairing run) Hall Henc)).
Defined.

(** The release of an application whose environment cannot be written. *)
Lemma ReleasesCreate_encoding_failure_witness :
  treeEntries Scenario.storage (incremented Scenario.unwritable)
  = inl (libError "dotenv" "malformed value") /\
  exists e, fst (Scenario.release Scenario.unwritable "release") = Err e.
Proof.
  assert (Henc : treeEntries Scenario.storage (incremented Scenario.unwritable)
                 = inl (libError "dotenv" "malformed value"))
    by (vm_compute; reflexivity).
  split; [exact Henc|].
  exact (proj1 (proj2 (@ReleasesCreate_encoding_failure SpecCodec.codec
                         Fake.repo Fake.github Scenario.storage "release"
                         (Scenario.start Scenario.unwritable) _ Henc)
                  _ _ (surjective_pairing _))).
Defined.

(** A version file without a number. *)
Lemma loadApp_version_witness :
  version_suffix Scenario.bad_version "web" "x" /\
  strconv_Atoi "x" = inl (NumError "Atoi" "x" ErrSyntax) /\
  Scenario.decode Scenario.bad_version "web"
  = (Err (NumError "Atoi" "x" ErrSyntax), named "web").
Proof.
  assert (Hs : version_suffix Scenario.bad_version "web" "x")
    by (exists "vx"; split; vm_compute; reflexivity).
  assert (Ha : strconv_Atoi "x" = inl (NumError "Atoi" "x" ErrSyntax))
    by (vm_compute; reflexivity).
  split; [exact Hs|]. split; [exact Ha|].
  exact (proj1 (proj2 (@loadApp_version SpecCodec.codec Scenario.bad_version
                         (named "web"))) "x" _ Hs Ha).
Defined.

(** A commit whose [services.json] is cut short. *)
Lemma loadApp_malformed_services_witness :
  version_suffix Scenario.broken_services "web" "1" /\
  strconv_Atoi "1" = inr 1 /\
  fileContent Scenario.broken_services "web/services.json" = Ok "{" /\
  @json_Unmarshal SpecCodec.codec "{" None
  = (Some (libError "json" "malformed JSON"), None) /\
  Scenario.decode Scenario.broken_services "web"
  = (Err (libError "json" "malformed JSON"),
     set_Formation None (set_Version 1 (named "web"))).
Proof.
  assert (Hs : version_suffix Scenario.broken_services "web" "1")
    by (exists "v1"; split; vm_compute; reflexivity).
  assert (Ha : strconv_Atoi "1" = inr 1) by (vm_compute; reflexivity).
  assert (Hc : fileContent Scenario.broken_services "web/services.json" = Ok "{")
    by (vm_compute; reflexivity).
  assert (Hu : @json_Unmarshal SpecCodec.codec "{" None
               = (Some (libError "json" "malformed JSON"), None))
    by (vm_compute; reflexivity).
  repeat (split; [assumption|]).
  exact (@loadApp_malformed_services SpecCodec.codec Scenario.broken_services
           (named "web") "1" "{" 1 _ None Hs Ha Hc Hu).
Defined.

(** The history of [web] over two commits. *)
Lemma Releases_history_witness :
  Repositories_ListCommits Scenario.history "remind101" "apps" "heads/master"
    "base/web/VERSION" = inr [Scenario.second; Scenario.first] /\
  forall rels,
    Scenario.web_releases = Ok rels <->
    Forall2
      (fun commit rel =>
         release_of commit rel
           (fst (loadApp (GetContentsAtRef Scenario.history Scenario.storage
                            (RepositoryCommit_SHA commit)) (named "web"))))
      [Scenario.second; Scenario.first] rels.
Proof.
  assert (Hlog : Repositories_ListCommits Scenario.history "remind101" "apps"
                   "heads/master" "base/web/VERSION"
                 = inr [Scenario.second; Scenario.first]) by reflexivity.
  split; [exact Hlog|].
  exact (proj1 (@Releases_history SpecCodec.codec Fake.repo Fake.github
                  Scenario.history Scenario.storage
                  {| Query_App := named "web" |} _ Hlog)).
Defined.

(** Finding any application takes the first directory. *)
Lemma AppsFind_first_match_witness :
  Scenario.list_apps Scenario.any_app = Ok [named "api"; named "web"] /\
  Scenario.find_app Scenario.any_app
  = fst (loadApp Scenario.registry_fetcher (named "api")).
Proof.
  assert (Happs : Scenario.list_apps Scenario.any_app
                  = Ok [named "api"; named "web"]) by reflexivity.
  split; [exact Happs|].
  exact (proj1 (@AppsFind_first_match SpecCodec.codec Fake.repo Fake.github
                  Scenario.registry Scenario.storage Scenario.any_app)
           _ Happs).
Defined.

(** A version file of white space. *)
Lemma loadApp_blank_version_panics_witness :
  let c := {| Content_Type := "file"; Content_Name := "";
              Decode := inr ("  " ++ chr "010") |} in
  Scenario.blank_version ["web/VERSION"] = ContentsFile c /\
  Decode c = inr ("  " ++ chr "010") /\
  strings_TrimSpace ("  " ++ chr "010") = "" /\
  Scenario.decode Scenario.blank_version "web"
  = (Panic "slice bounds out of range [1:0]", named "web").
Proof.
  intros c.
  assert (Hf : Scenario.blank_version ["web/VERSION"] = ContentsFile c)
    by reflexivity.
  assert (Hd : Decode c = inr ("  " ++ chr "010")) by reflexivity.
  assert (Hb : strings_TrimSpace ("  " ++ chr "010") = "") by reflexivity.
  repeat (split; [assumption|]).
  exact (proj1 (@loadApp_blank_version_panics SpecCodec.codec
                  Scenario.blank_version (named "web") c _ Hf Hd) Hb).
Defined.

(** The release of [web]: five calls, all successful. *)
Lemma ReleasesCreate_stops_at_first_failure_witness :
  let run := Scenario.release Scenario.web "release" in
  run = (fst run, snd run) /\
  all_succeeded
    (removelast (new_calls (calls (Scenario.start Scenario.web))
                           (calls (snd run)))) = true.
Proof.
  intros run. split; [apply surjective_pairing|].
  exact (proj1 (proj2 (proj2
           (ReleasesCreate_stops_at_first_failure Scenario.storage "release"
              (Scenario.start Scenario.web) (snd run) (fst run)
              (surjective_pairing run))))).
Defined.

(** Two releases of [web] in a row. *)
Lemma ReleasesCreate_advances_on_failure_witness :
  let run1 := Scenario.release Scenario.web "one" in
  let run2 := Scenario2.twice Scenario.web "one" "two" in
  run1 = (fst run1, snd run1) /\ run2 = (fst run2, snd run2) /\
  the_app (snd run2)
  = set_Version (to_int (to_int (Version Scenario.web + 1) + 1)) Scenario.web.
Proof.
  intros run1 run2.
  split; [apply surjective_pairing|]. split; [apply surjective_pairing|].
  exact (proj2 (ReleasesCreate_advances_on_failure Scenario.storage "one" "two"
                  (Scenario.start Scenario.web) (snd run1) (snd run2)
                  (fst run1) (fst run2)
                  (surjective_pairing run1) (surjective_pairing run2))).
Defined.

(** The calls of the release of [web]. *)
Lemma ReleasesCreate_success_calls_witness :
  let run := Scenario.release Scenario.web "release" in
  run = (Ok Scenario2.released, snd run) /\
  exists ref lastCommit entries tree commit,
    new_calls (calls (Scenario.start Scenario.web)) (calls (snd run)) =
      [ (CallGetRef "heads/master", true);
        (CallGetCommit (Object_SHA ref), true);
        (CallCreateTree (Tree_SHA (Commit_Tree lastCommit)) entries, true);
        (CallCreateCommit "release" tree [lastCommit], true);
        (CallMerge "heads/master" (Commit_SHA commit), true) ].
Proof.
  intros run.
  assert (Hrun : run = (Ok Scenario2.released, snd run)).
  { rewrite (surjective_pairing run) at 1. f_equal. }
  split; [exact Hrun|].
  destruct (ReleasesCreate_success_calls Scenario.storage "release"
              (Scenario.start Scenario.web) (snd run) Scenario2.released Hrun)
    as (ref & lastCommit & entries & tree & commit & r1 & r2 & _ & _ & _ & _ &
        _ & _ & Hcalls).
  exists ref, lastCommit, entries, tree, commit. exact Hcalls.
Defined.

(** The two entries of [web]. *)
Lemma treeEntries_blobs_witness :
  treeEntries Scenario.storage (set_Version 1 Scenario.web)
  = inr Scenario.web_entries /\
  List.NoDup (map Path Scenario.web_entries).
Proof.
  assert (Henc : treeEntries Scenario.storage (set_Version 1 Scenario.web)
                 = inr Scenario.web_entries) by (vm_compute; reflexivity).
  split; [exact Henc|].
  exact (proj1 (proj2 (treeEntries_blobs _ _ _ Henc))).
Defined.

(** The two entries of [web] are under [base]. *)
Lemma treeEntries_paths_under_BasePath_witness :
  treeEntries Scenario.storage (set_Version 1 Scenario.web)
  = inr Scenario.web_entries /\
  Forall (fun e => lexically_under "base" (Path e) = negb (String.eqb "web" ".."))
         Scenario.web_entries.
Proof.
  assert (Henc : treeEntries Scenario.storage (set_Version 1 Scenario.web)
                 = inr Scenario.web_entries) by (vm_compute; reflexivity).
  split; [exact Henc|].
  exact (treeEntries_paths_under_BasePath _ _ _ Henc).
Defined.

(** Two applications have two version files. *)
Lemma PathJoin_inj_witness :
  PathJoin "base" ["web"; FileVersion] = PathJoin "base" ["web"; "VERSION"] /\
  ["web"; FileVersion] = ["web"; "VERSION"].
Proof.
  assert (Heq : PathJoin "base" ["web"; FileVersion]
                = PathJoin "base" ["web"; "VERSION"]) by reflexivity.
  split; [exact Heq|]. exact (PathJoin_inj _ _ _ Heq).
Defined.

(** [web] has no image and no formation: it does not decode from its
    own encoding. *)
Lemma loadApp_treeEntries_nil_field_witness :
  is_int 1 /\
  treeEntries Scenario.storage (set_Version 1 Scenario.web)
  = inr Scenario.web_entries /\
  serves Scenario2.web_fetcher Scenario.storage "web" Scenario.web_entries /\
  Image (set_Version 1 Scenario.web) = None /\
  exists e, fst (loadApp Scenario2.web_fetcher (named "web")) = Err e.
Proof.
  assert (Hint : is_int 1) by (unfold is_int, minInt, maxInt; lia).
  assert (Henc : treeEntries Scenario.storage (set_Version 1 Scenario.web)
                 = inr Scenario.web_entries) by (vm_compute; reflexivity).
  assert (Hserves : serves Scenario2.web_fetcher Scenario.storage "web"
                      Scenario.web_entries).
  { intros file Hin. cbn [In] in Hin.
    destruct Hin as [<-|[<-|[<-|[<-|[]]]]]; vm_compute;
      eexists; try split; reflexivity. }
  assert (Hnil : Image (set_Version 1 Scenario.web) = None) by reflexivity.
  repeat (split; [assumption|]).
  exact (proj1 (loadApp_treeEntries_nil_field Scenario.storage
                  (set_Version 1 Scenario.web) Scenario2.web_fetcher
                  Scenario.web_entries Hint Henc Hserves
                  (or_intror (or_introl Hnil)))).
Defined.

(** [api] decodes from its encoding. *)
Lemma loadApp_success_witness :
  exists app' st,
    loadApp Scenario2.api_fetcher (named "api") = (Ok app', st) /\
    st = app' /\ Name app' = "api" /\ Image app' <> None.
Proof.
  assert (Hok : match fst (loadApp Scenario2.api_fetcher (named "api")) with
                | Ok _ => True
                | _ => False
                end) by (vm_compute; exact I).
  destruct (loadApp Scenario2.api_fetcher (named "api")) as [[a|e|m] st] eqn:Hrun;
    cbn [fst] in Hok; try (destruct Hok).
  exists a, st. split; [reflexivity|].
  destruct (loadApp_success _ _ _ _ Hrun) as (H1 & H2 & H3 & _).
  auto.
Defined.

(** A missing [services.json]. *)
Lemma fileContent_errors_witness :
  fileContent Scenario.only_version "web/services.json"
  = Err (fmt_Errorf "get contents of %q: %v" ["web/services.json"]
           (libError "github" "404 Not Found")) /\
  error_mentions "web/services.json"
    (fmt_Errorf "get contents of %q: %v" ["web/services.json"]
       (libError "github" "404 Not Found")) = true.
Proof.
  assert (Herr : fileContent Scenario.only_version "web/services.json"
                 = Err (fmt_Errorf "get contents of %q: %v" ["web/services.json"]
                          (libError "github" "404 Not Found"))) by reflexivity.
  split; [exact Herr|].
  exact (proj2 (proj1 (fileContent_errors _ _) _ Herr)).
Defined.

(** A version file without a number gives the error of [Atoi]. *)
Lemma loadApp_error_kinds_witness :
  Scenario.decode Scenario.bad_version "web"
  = (Err (NumError "Atoi" "x" ErrSyntax), named "web") /\
  ((exists file,
      In file [FileVersion; FileServices; FileImage; FileEnv] /\
      fileContent Scenario.bad_version (PathJoin "web" [file])
      = Err (NumError "Atoi" "x" ErrSyntax) /\
      error_mentions (PathJoin "web" [file]) (NumError "Atoi" "x" ErrSyntax)
      = true) \/
   (exists sfx, strconv_Atoi sfx = inl (NumError "Atoi" "x" ErrSyntax)) \/
   (exists raw cur,
      fst (json_Unmarshal raw cur) = Some (NumError "Atoi" "x" ErrSyntax)) \/
   (exists raw, image_Decode raw = inl (NumError "Atoi" "x" ErrSyntax)) \/
   (exists raw, dotenv_Read raw = inl (NumError "Atoi" "x" ErrSyntax))).
Proof.
  assert (Hrun : Scenario.decode Scenario.bad_version "web"
                 = (Err (NumError "Atoi" "x" ErrSyntax), named "web"))
    by reflexivity.
  split; [exact Hrun|].
  exact (loadApp_error_kinds Scenario.bad_version (named "web") (named "web")
           _ Hrun).
Defined.

(** The listing of the registry. *)
Lemma Apps_listing_witness :
  Scenario.list_apps Scenario.any_app = Ok [named "api"; named "web"] /\
  In (named "web") [named "api"; named "web"] /\
  named "web" = named (Name (named "web")).
Proof.
  assert (Happs : Scenario.list_apps Scenario.any_app
                  = Ok [named "api"; named "web"]) by reflexivity.
  assert (Hin : In (named "web") [named "api"; named "web"])
    by (right; left; reflexivity).
  split; [exact Happs|]. split; [exact Hin|].
  exact (proj1 (proj2 (proj2
           (Apps_listing Scenario.registry Scenario.storage Scenario.any_app))
           _ _ Happs Hin)).
Defined.

(** No directory of the registry is named [worker]. *)
Lemma AppsFind_by_name_witness :
  Query_Name {| Query_Name := Some "worker" |} = Some "worker" /\
  Scenario.find_app {| Query_Name := Some "worker" |}
  = Err (NotFoundError (errors_New "app not found")).
Proof.
  split; [reflexivity|].
  refine (proj2 (AppsFind_by_name Scenario.registry Scenario.storage
                   {| Query_Name := Some "worker" |} "worker" eq_refl)
            _ eq_refl _).
  intros f Hin Hdir. cbn [In] in Hin.
  destruct Hin as [<-|[<-|[<-|[]]]]; discriminate.
Defined.

(** A commit log that cannot be had. *)
Lemma Releases_first_failure_witness :
  Repositories_ListCommits Scenario2.no_log "remind101" "apps" "heads/master"
    "base/web/VERSION" = inl (libError "github" "ListCommits") /\
  Scenario2.no_log_releases = Err (libError "github" "ListCommits").
Proof.
  assert (Hlog : Repositories_ListCommits Scenario2.no_log "remind101" "apps"
                   "heads/master" "base/web/VERSION"
                 = inl (libError "github" "ListCommits")) by reflexivity.
  split; [exact Hlog|].
  exact (proj1 (Releases_first_failure Scenario2.no_log Scenario.storage
                  {| Query_App := named "web" |}) _ Hlog).
Defined.

(** A client that asks for a second factor. *)
Lemma Authenticate_outcomes_witness :
  Auth.CreateAuthorization Scenario2.two_factor
    {| Auth.Username := "ejholmes"; Auth.Password := "pw"; Auth.OTP := "" |}
  = inl Auth.errTwoFactor /\
  Auth.Authenticate Scenario2.two_factor "ejholmes" "pw" ""
  = Auth.Fail Auth.auth_ErrTwoFactor.
Proof.
  split; [reflexivity|].
  exact (proj1 (proj2 (Authenticate_outcomes Scenario2.two_factor
                         "ejholmes" "pw" "")) eq_refl).
Defined.

(** A member of the organization. *)
Lemma Organization_Authorize_grants_witness :
  "remind101" <> "" /\
  Auth.IsOrganizationMember Scenario2.members "remind101" "secret"
  = (true, None) /\
  Auth.Organization_Authorize Scenario2.members "remind101" Scenario2.ejholmes
  = Auth.Return tt.
Proof.
  assert (Hne : "remind101" <> "") by discriminate.
  split; [exact Hne|]. split; [reflexivity|].
  exact (proj2 (proj1 (Organization_Authorize_grants Scenario2.members
                         "remind101" Scenario2.ejholmes))
           (conj Hne eq_refl)).
Defined.

(** Not a member of team 7. *)
Lemma Team_Authorize_grants_witness :
  "7" <> "" /\
  Auth.IsTeamMember Scenario2.members "7" "ejholmes" "secret" = (false, None) /\
  Auth.Team_Authorize Scenario2.members "7" Scenario2.ejholmes
  = Auth.Fail (Auth.UnauthorizedError "ejholmes is not a member of team 7.").
Proof.
  assert (Hne : "7" <> "") by discriminate.
  split; [exact Hne|]. split; [reflexivity|].
  exact (proj2 (proj2 (proj2 (Team_Authorize_grants Scenario2.members
                                "7" Scenario2.ejholmes)))
           Hne eq_refl).
Defined.

(** A release with a creation time is shown. *)
Lemma newRelease_CreatedAt_witness :
  CreatedAt Scenario2.dated = Some 100 /\
  exists h,
    newRelease Scenario2.dated Scenario2.someone = Ok h /\
    heroku_Version h = 7 /\ heroku_Slug h = Some "remind101/api:latest".
Proof.
  split; [reflexivity|].
  eexists. split.
  - exact (proj1 (proj2 (newRelease_CreatedAt Scenario2.dated Scenario2.someone))
             100 eq_refl).
  - split; reflexivity.
Defined.

(** A list of one release with a creation time is shown. *)
Lemma newReleases_of_history_witness :
  Forall (fun ru => CreatedAt (fst ru) <> None)
         [(Scenario2.dated, Scenario2.someone)] /\
  exists hs, newReleases [(Scenario2.dated, Scenario2.someone)] = Ok hs.
Proof.
  assert (Hall : Forall (fun ru : Release * heroku_User => CreatedAt (fst ru) <> None)
                        [(Scenario2.dated, Scenario2.someone)])
    by (repeat constructor; discriminate).
  split; [exact Hall|].
  exact (proj2 (proj1 (proj2 (newReleases_of_history
                                [(Scenario2.dated, Scenario2.someone)])))
           Hall).
Defined.

(** A version file with a space before and a line end after. *)
Lemma loadApp_version_trimmed_witness :
  is_int 12 /\ blank " " = true /\ blank (chr "010") = true /\
  solid "v" = true /\
  fileContent Scenario2.spaced_version (PathJoin "web" [FileVersion])
  = Ok (" " ++ String "v" (fmtInteger 12) ++ chr "010") /\
  version_suffix Scenario2.spaced_version "web" (fmtInteger 12).
Proof.
  assert (Hint : is_int 12) by (unfold is_int, minInt, maxInt; lia).
  assert (Hfile : fileContent Scenario2.spaced_version (PathJoin "web" [FileVersion])
                  = Ok (" " ++ String "v" (fmtInteger 12) ++ chr "010"))
    by reflexivity.
  split; [exact Hint|]. do 3 (split; [reflexivity|]). split; [exact Hfile|].
  exact (proj1 (loadApp_version_trimmed Scenario2.spaced_version (named "web")
                  (named "web") (named "web") " " (chr "010") "v" 12
                  Hint eq_refl eq_refl eq_refl Hfile)).
Defined.
